(* Shallow embedding of the GraphQL lexer (src/lexer/mod.rs) and the
   recursive-descent parser (src/parser/mod.rs) of gql_lsp. *)

From Stdlib Require Import List String Ascii NArith ZArith Bool Lia.
Import ListNotations.
#[local] Set Warnings "-register-all".
Open Scope list_scope.

(* ------------------------------------------------------------------ *)
(** * Characters and strings

    A Rust [char] is a Unicode scalar value: here its code point, an [N].
    A Rust [String] is the sequence of its chars. *)

Definition char := N.

(** Rust string literals of the source, which are all ASCII. *)
Fixpoint str (s : string) : list char :=
  match s with
  | EmptyString => []
  | String a s' => N_of_ascii a :: str s'
  end.

Fixpoint list_char_eqb (a b : list char) : bool :=
  match a, b with
  | [], [] => true
  | x :: a', y :: b' => N.eqb x y && list_char_eqb a' b'
  | _, _ => false
  end.

(** src/constants.rs *)
Definition NEW_LINE : char := 10%N.
Definition CARRIAGE_RETURN : char := 13%N.
Definition SPACE : char := 32%N.
Definition TAB : char := 9%N.
Definition BOM : char := 65279%N.

Definition DOUBLE_QUOTE : char := 34%N.
Definition BACKSLASH : char := 92%N.

Definition ch (s : string) : char :=
  match s with String a _ => N_of_ascii a | EmptyString => 0%N end.

(** src/helpers.rs: is_line_terminator *)
Definition is_line_terminator (c : char) : bool :=
  N.eqb c NEW_LINE || N.eqb c CARRIAGE_RETURN.

Definition is_ascii_digit (c : char) : bool := (48 <=? c)%N && (c <=? 57)%N.
Definition is_ascii_alphabetic (c : char) : bool :=
  ((65 <=? c)%N && (c <=? 90)%N) || ((97 <=? c)%N && (c <=? 122)%N).
Definition is_ascii_alphanumeric (c : char) : bool :=
  is_ascii_digit c || is_ascii_alphabetic c.

(* ------------------------------------------------------------------ *)
(** * src/lsp_types.rs *)

Module Position.
Record t := new { line : nat; character : nat }.
End Position.

Module Range.
(** [end] is a keyword of Rocq: the field is [end_]. *)
Record t := new { start : Position.t; end_ : Position.t }.
End Range.

Module DiagnosticSeverity.
Inductive t := Error | Warning | Information | Hint.
End DiagnosticSeverity.

Module Diagnostic.
Record t := new_ { severity : DiagnosticSeverity.t; message : list char; range : Range.t }.
(** [Diagnostic::new(severity, message, range)] *)
Definition new (severity : DiagnosticSeverity.t) (message : list char) (range : Range.t) : t :=
  new_ severity message range.
End Diagnostic.

Definition error_at (message : list char) (line character : nat) (line' character' : nat)
  : Diagnostic.t :=
  Diagnostic.new DiagnosticSeverity.Error message
    (Range.new (Position.new line character) (Position.new line' character')).

(* ------------------------------------------------------------------ *)
(** * Outcomes

    A Rust function returning [Result<A, Diagnostic>] may also panic
    ([unwrap] on [None], [panic!], [unimplemented!]).  The recursive parser
    runs on fuel; [OutOfFuel] means that no result was reached within the
    fuel given, it is not a result of the Rust code. *)

Inductive res (A : Type) : Type :=
| Ok (a : A)
| Err (d : Diagnostic.t)
| Panic (msg : list char)
| OutOfFuel.
Arguments Ok {A} a.
Arguments Err {A} d.
Arguments Panic {A} msg.
Arguments OutOfFuel {A}.

Definition res_bind {A B} (m : res A) (k : A -> res B) : res B :=
  match m with
  | Ok a => k a
  | Err d => Err d
  | Panic m => Panic m
  | OutOfFuel => OutOfFuel
  end.

(** Rust's [?] on a [res]. *)
Notation "x <-? m ;; k" := (res_bind m (fun x => k)) (at level 61, m at next level, right associativity).

(* ------------------------------------------------------------------ *)
(** * src/lexer/types.rs *)

Module Punctuator.
Inductive t :=
| ExclamationMark | DollarSign | Ampersand | LeftParenthesis | RightParenthesis
| Ellipsis | Colon | EqualSign | AtSign | LeftBracket | RightBracket
| LeftBrace | RightBrace | VerticalBar.

Definition eqb (a b : t) : bool :=
  match a, b with
  | ExclamationMark, ExclamationMark | DollarSign, DollarSign
  | Ampersand, Ampersand | LeftParenthesis, LeftParenthesis
  | RightParenthesis, RightParenthesis | Ellipsis, Ellipsis | Colon, Colon
  | EqualSign, EqualSign | AtSign, AtSign | LeftBracket, LeftBracket
  | RightBracket, RightBracket | LeftBrace, LeftBrace
  | RightBrace, RightBrace | VerticalBar, VerticalBar => true
  | _, _ => false
  end.
End Punctuator.

(** [char_to_punctuator]; [None] is its [panic!("Invalid punctuator")]. *)
Definition char_to_punctuator (c : char) : option Punctuator.t :=
  if N.eqb c (ch "!") then Some Punctuator.ExclamationMark
  else if N.eqb c (ch "$") then Some Punctuator.DollarSign
  else if N.eqb c (ch "&") then Some Punctuator.Ampersand
  else if N.eqb c (ch "(") then Some Punctuator.LeftParenthesis
  else if N.eqb c (ch ")") then Some Punctuator.RightParenthesis
  else if N.eqb c (ch ".") then Some Punctuator.Ellipsis
  else if N.eqb c (ch ":") then Some Punctuator.Colon
  else if N.eqb c (ch "=") then Some Punctuator.EqualSign
  else if N.eqb c (ch "@") then Some Punctuator.AtSign
  else if N.eqb c (ch "[") then Some Punctuator.LeftBracket
  else if N.eqb c (ch "]") then Some Punctuator.RightBracket
  else if N.eqb c (ch "{") then Some Punctuator.LeftBrace
  else if N.eqb c (ch "}") then Some Punctuator.RightBrace
  else if N.eqb c (ch "|") then Some Punctuator.VerticalBar
  else None.

(** The text [sign digits . digits] handed to [parse::<f32>]; the rounding
    to an f32 is not modelled (the float's value plays no part below). *)
Record FloatLit := { float_sign : list char; float_int : list char; float_decimal : list char }.

Module LexicalTokenType.
Inductive t :=
| Punctuator (p : Punctuator.t)
| Name (value : list char)
| IntValue (value : Z)
| FloatValue (value : FloatLit)
| StringValue (value : list char)
| EOF.

(** The derived [PartialEq]. *)
Definition eqb (a b : t) : bool :=
  match a, b with
  | Punctuator p, Punctuator q => Punctuator.eqb p q
  | Name x, Name y => list_char_eqb x y
  | IntValue x, IntValue y => Z.eqb x y
  | FloatValue x, FloatValue y =>
      list_char_eqb (float_sign x) (float_sign y)
      && list_char_eqb (float_int x) (float_int y)
      && list_char_eqb (float_decimal x) (float_decimal y)
  | StringValue x, StringValue y => list_char_eqb x y
  | EOF, EOF => true
  | _, _ => false
  end.
End LexicalTokenType.

Module LexicalToken.
Record t := new { token_type : LexicalTokenType.t; position : Range.t }.
End LexicalToken.

(* ------------------------------------------------------------------ *)
(** * src/lexer/mod.rs *)

Module Lexer.
(** The lexer's state.  The Rust struct holds [source] and the index [ptr]
    of the next char; [rest] is [source.chars().skip(ptr)], so that
    [peek] ([source.chars().nth(ptr)]) is its head and [next]
    ([ptr += 1]) drops it. *)
Record t := mk { rest : list char; character : nat; line : nat }.

Definition new (source : list char) : t := mk source 0 0.

Definition peek (lx : t) : option char := hd_error (rest lx).

Definition next (lx : t) : option char * t :=
  (peek lx, mk (tl (rest lx)) (S (character lx)) (line lx)).

(** [consume_while]: the loop over the remaining chars, with the line
    accounting done after a consumed line terminator. *)
Fixpoint consume_while_from (condition : char -> bool) (cs : list char)
    (character line : nat) (result : list char) : list char * t :=
  match cs with
  | [] => (result, mk [] character line)
  | c :: cs' =>
      if condition c then
        if is_line_terminator c
        then consume_while_from condition cs' 0 (S line) (result ++ [c])
        else consume_while_from condition cs' (S character) line (result ++ [c])
      else (result, mk cs character line)
  end.

Definition consume_while (condition : char -> bool) (lx : t) : list char * t :=
  consume_while_from condition (rest lx) (character lx) (line lx) [].

Fixpoint ignore_while_from (condition : char -> bool) (cs : list char)
    (character line : nat) : t :=
  match cs with
  | [] => mk [] character line
  | c :: cs' =>
      if condition c then
        if is_line_terminator c
        then ignore_while_from condition cs' 0 (S line)
        else ignore_while_from condition cs' (S character) line
      else mk cs character line
  end.

Definition ignore_while (condition : char -> bool) (lx : t) : t :=
  ignore_while_from condition (rest lx) (character lx) (line lx).

Definition expected_found (expected : char) (found : option char) : list char :=
  str "Expected " ++ [DOUBLE_QUOTE; expected; DOUBLE_QUOTE] ++ str ", found "
    ++ match found with
       | Some c => [DOUBLE_QUOTE; c; DOUBLE_QUOTE]
       | None => str "EOF"
       end.

Definition expect_next (expected : char) (lx : t) : res (char * t) :=
  let '(n, lx') := next lx in
  match n with
  | Some c =>
      if N.eqb c expected then Ok (c, lx')
      else Err (error_at (expected_found expected (Some c))
                  (line lx') (character lx') (line lx') (S (character lx')))
  | None =>
      Err (error_at (expected_found expected None)
             (line lx') (character lx') (line lx') (S (character lx')))
  end.

Definition expect_peek (expected : char) (lx : t) : res char :=
  match peek lx with
  | Some c =>
      if N.eqb c expected then Ok c
      else Err (error_at (expected_found expected (Some c))
                  (line lx) (character lx) (line lx) (S (character lx)))
  | None =>
      Err (error_at (expected_found expected None)
             (line lx) (character lx) (line lx) (S (character lx)))
  end.

(** The escapes of [tokenize_string]: backslash followed by n, r, t,
    backslash or a double quote. *)
Definition unescape (e : char) : option char :=
  if N.eqb e (ch "n") then Some NEW_LINE
  else if N.eqb e (ch "r") then Some CARRIAGE_RETURN
  else if N.eqb e (ch "t") then Some TAB
  else if N.eqb e BACKSLASH then Some BACKSLASH
  else if N.eqb e DOUBLE_QUOTE then Some DOUBLE_QUOTE
  else None.

(** The [while let Some(c) = self.peek()] loop of [tokenize_string] and the
    "Unterminated string." error after it. *)
Fixpoint string_loop (cs : list char) (character line : nat) (result : list char)
  : res (list char * t) :=
  match cs with
  | [] =>
      Err (error_at (str "Unterminated string.") line character line (S character))
  | c :: cs' =>
      if N.eqb c DOUBLE_QUOTE then Ok (result, mk cs' (S character) line)
      else if N.eqb c BACKSLASH then
        (* self.next(); let escaped = self.peek(); *)
        match cs' with
        | e :: cs'' =>
            match unescape e with
            | Some d => string_loop cs'' (S (S character)) line (result ++ [d])
            | None =>
                Err (error_at (str "Invalid character escape sequence.")
                       line (S character) line (S (S character)))
            end
        | [] =>
            Err (error_at (str "Invalid character escape sequence.")
                   line (S character) line (S (S character)))
        end
      else if is_line_terminator c then
        Err (error_at (str "Unterminated string.") line character line (S character))
      else string_loop cs' (S character) line (result ++ [c])
  end.

Definition tokenize_string (lx : t) : res (LexicalToken.t * t) :=
  let start_position := Position.new (line lx) (character lx) in
  q <-? expect_next DOUBLE_QUOTE lx ;;
  let '(_, lx1) := q in
  r <-? string_loop (rest lx1) (character lx1) (line lx1) [] ;;
  let '(result, lx2) := r in
  Ok (LexicalToken.new (LexicalTokenType.StringValue result)
        (Range.new start_position (Position.new (line lx2) (character lx2))), lx2).

Definition digits_value (ds : list char) : Z :=
  fold_left (fun acc d => (acc * 10 + Z.of_N d - 48)%Z) ds 0%Z.

(** [format!("{}{}", sign, number_value).parse::<i32>()] for a non-empty
    run of ASCII digits. *)
Definition parse_i32 (sign : list char) (ds : list char) : option Z :=
  let v := match sign with [] => digits_value ds | _ => Z.opp (digits_value ds) end in
  if ((-2147483648 <=? v) && (v <=? 2147483647))%Z then Some v else None.

(** The integer branch at the end of [tokenize_number]. *)
Definition int_token (sign number_value : list char) (lx2 : t) : res (LexicalToken.t * t) :=
  match parse_i32 sign number_value with
  | Some value =>
      Ok (LexicalToken.new (LexicalTokenType.IntValue value)
            (Range.new (Position.new (line lx2) (character lx2))
               (Position.new (line lx2) (character lx2 + List.length number_value))), lx2)
  | None =>
      Err (error_at (str "Invalid number")
             (line lx2) (character lx2) (line lx2) (S (character lx2)))
  end.

Definition tokenize_number (lx : t) : res (LexicalToken.t * t) :=
  let '(sign, lx1) :=
    match peek lx with
    | Some c => if N.eqb c (ch "-") then (str "-", snd (next lx)) else ([], lx)
    | None => ([], lx)
    end in
  let '(number_value, lx2) := consume_while is_ascii_digit lx1 in
  match number_value with
  | [] =>
      Err (error_at (str "Invalid number, expected digit")
             (line lx2) (character lx2) (line lx2) (S (character lx2)))
  | _ :: _ =>
      match peek lx2 with
      | Some c =>
          if N.eqb c (ch ".") then
            let lx3 := snd (next lx2) in
            let '(decimal_value, lx4) := consume_while is_ascii_digit lx3 in
            match decimal_value with
            | [] =>
                Err (error_at (str "Invalid number, expected digit")
                       (line lx4) (character lx4) (line lx4) (S (character lx4)))
            | _ :: _ =>
                (* parse::<f32> accepts every such text *)
                Ok (LexicalToken.new
                      (LexicalTokenType.FloatValue
                         {| float_sign := sign; float_int := number_value;
                            float_decimal := decimal_value |})
                      (Range.new (Position.new (line lx4) (character lx4))
                         (Position.new (line lx4)
                            (character lx4 + List.length number_value + List.length decimal_value))),
                    lx4)
            end
          else int_token sign number_value lx2
      | None => int_token sign number_value lx2
      end
  end.
Definition is_ignored (c : char) : bool :=
  N.eqb c SPACE || N.eqb c TAB || N.eqb c BOM || N.eqb c (ch ",").

(** The chars of the punctuator arm of [lex] (the ellipsis has its own). *)
Definition is_punctuator_char (c : char) : bool :=
  existsb (N.eqb c) (str "!$&():=@[]{}|").

Definition is_name_start (c : char) : bool := is_ascii_alphabetic c || N.eqb c (ch "_").
Definition is_name_continue (c : char) : bool := is_ascii_alphanumeric c || N.eqb c (ch "_").

(** The [while let Some(c) = self.peek()] loop of [Lexer::lex], run on
    fuel; it returns the tokens pushed and the state it stops in. *)
Fixpoint lex_while (fuel : nat) (tokens : list LexicalToken.t) (lx : t)
  : res (list LexicalToken.t * t) :=
  match fuel with
  | O => OutOfFuel
  | S fuel =>
    match peek lx with
    | None => Ok (tokens, lx)
    | Some c =>
      if is_ignored c then lex_while fuel tokens (snd (next lx))
      else if is_line_terminator c then
        (* self.line += 1; self.next(); self.character = 0; *)
        let lx1 := snd (next (mk (rest lx) (character lx) (S (line lx)))) in
        lex_while fuel tokens (mk (rest lx1) 0 (line lx1))
      else if N.eqb c (ch "#") then
        lex_while fuel tokens (ignore_while (fun c => negb (is_line_terminator c)) lx)
      else if is_punctuator_char c then
        match char_to_punctuator c with
        | None => Panic (str "Invalid punctuator")
        | Some punctuator =>
            let character := character lx in
            let lx1 := snd (next lx) in
            lex_while fuel
              (tokens ++ [LexicalToken.new (LexicalTokenType.Punctuator punctuator)
                            (Range.new (Position.new (line lx1) character)
                               (Position.new (line lx1) (Lexer.character lx1)))])
              lx1
        end
      else if N.eqb c (ch ".") then
        let start_position := Position.new (line lx) (character lx) in
        let lx1 := snd (next lx) in
        _ <-? expect_peek (ch ".") lx1 ;;
        let lx2 := snd (next lx1) in
        _ <-? expect_peek (ch ".") lx2 ;;
        let lx3 := snd (next lx2) in
        lex_while fuel
          (tokens ++ [LexicalToken.new (LexicalTokenType.Punctuator Punctuator.Ellipsis)
                        (Range.new start_position (Position.new (line lx3) (character lx3)))])
          lx3
      else if N.eqb c DOUBLE_QUOTE then
        r <-? tokenize_string lx ;;
        let '(token, lx1) := r in lex_while fuel (tokens ++ [token]) lx1
      else if N.eqb c (ch "-") then
        r <-? tokenize_number lx ;;
        let '(token, lx1) := r in lex_while fuel (tokens ++ [token]) lx1
      else
        let character := character lx in
        let line := line lx in
        if is_ascii_digit c then
          r <-? tokenize_number lx ;;
          let '(token, lx1) := r in lex_while fuel (tokens ++ [token]) lx1
        else if is_name_start c then
          let '(value, lx1) := consume_while is_name_continue lx in
          lex_while fuel
            (tokens ++ [LexicalToken.new (LexicalTokenType.Name value)
                          (Range.new (Position.new line character)
                             (Position.new (Lexer.line lx1) (Lexer.character lx1)))])
            lx1
        else
          Err (Diagnostic.new DiagnosticSeverity.Error
                 (str "Unexpected character: " ++ [c])
                 (Range.new (Position.new line character)
                    (Position.new (Lexer.line lx) (Lexer.character lx))))
    end
  end.

(** [Lexer::lex]: the loop, then the EOF token at the final position.  Each
    round of the loop consumes a char or fails, so the length of the
    input, plus one, is fuel enough. *)
Definition lex (lx : t) : res (list LexicalToken.t) :=
  r <-? lex_while (S (List.length (rest lx))) [] lx ;;
  let '(tokens, lx') := r in
  Ok (tokens ++ [LexicalToken.new LexicalTokenType.EOF
                   (Range.new (Position.new (line lx') (character lx'))
                      (Position.new (line lx') (character lx')))]).
End Lexer.

(** [pub fn lex(source: String)] *)
Definition lex (source : list char) : res (list LexicalToken.t) :=
  Lexer.lex (Lexer.new source).

(* ------------------------------------------------------------------ *)
(** * src/parser/types.rs

    Each struct is a record [t] in a module of its name; the
    mutually recursive [Type], [Value] and [Selection] clusters are
    inductive types whose constructors carry the fields of the variant's
    struct. *)

Module OperationType.
Inductive t := Query | Mutation | Subscription.

(** [OperationType::parse] *)
Definition parse (value : list char) : option t :=
  if list_char_eqb value (str "query") then Some Query
  else if list_char_eqb value (str "mutation") then Some Mutation
  else if list_char_eqb value (str "subscription") then Some Subscription
  else None.
End OperationType.

Module Name.
Record t := mk { value : list char; position : Range.t }.
End Name.

(** [Variable] is a keyword of Rocq: the module is [Variable_]. *)
Module NamedType.
Record t := mk { name : Name.t; position : Range.t }.
End NamedType.

Module Variable_.
Record t := mk { name : Name.t; position : Range.t }.
End Variable_.

Module StringValue.
Record t := mk { value : list char; block : bool; position : Range.t }.
End StringValue.

(** [Type] is a keyword of Rocq: the module is [Type_]. *)
Module Type_.
Inductive t :=
| NamedType (n : NamedType.t)
| ListType (wrapped_type : t) (position : Range.t)
| NonNullType (wrapped_type : t) (position : Range.t).

Definition position (ty : t) : Range.t :=
  match ty with
  | NamedType n => NamedType.position n
  | ListType _ p | NonNullType _ p => p
  end.
End Type_.

Module Value.
Inductive t :=
| Variable_ (v : Variable_.t)
| IntValue (value : Z) (position : Range.t)
| FloatValue (value : FloatLit) (position : Range.t)
| StringValue (s : StringValue.t)
| BooleanValue (value : bool) (position : Range.t)
| NullValue (position : Range.t)
| EnumValue (value : list char) (position : Range.t)
| ListValue (values : list t) (position : Range.t)
| ObjectValue (fields : list object_field) (position : Range.t)
with object_field :=
| ObjectField (name : Name.t) (value : t) (position : Range.t).
End Value.

Module Argument.
Record t := mk { name : Name.t; value : Value.t; position : Range.t }.
End Argument.

Module Directive.
Record t := mk { name : Name.t; position : Range.t; arguments : list Argument.t }.
End Directive.

Module VariableDefinition.
Record t := mk { variable : Variable_.t; variable_type : Type_.t;
                 default_value : option Value.t; position : Range.t }.
End VariableDefinition.

Module FragmentSpread.
Record t := mk { name : Name.t; directives : list Directive.t; position : Range.t }.
End FragmentSpread.

Module Selection.
Inductive t :=
| Field (alias : option Name.t) (name : Name.t) (arguments : list Argument.t)
        (directives : list Directive.t) (selection_set : option selection_set)
        (position : Range.t)
| FragmentSpread (f : FragmentSpread.t)
| InlineFragment (type_condition : option NamedType.t) (directives : list Directive.t)
                 (selection_set : selection_set) (position : Range.t)
with selection_set :=
| SelectionSet (selections : list t) (position : Range.t).
End Selection.

Module OperationDefinition.
Record t := mk { name : option Name.t; operation : OperationType.t;
                 variable_definitions : list VariableDefinition.t;
                 selection_set : Selection.selection_set;
                 directives : list Directive.t; position : Range.t;
                 anonymous : bool }.
End OperationDefinition.

Module FragmentDefinition.
Record t := mk { name : Name.t; type_condition : NamedType.t;
                 directives : list Directive.t;
                 selection_set : Selection.selection_set; position : Range.t }.
End FragmentDefinition.

Module RootOperationTypeDefinition.
Record t := mk { operation_type : OperationType.t; named_type : NamedType.t;
                 position : Range.t }.
End RootOperationTypeDefinition.

Module SchemaDefinition.
Record t := mk { description : option StringValue.t;
                 operation_types : list RootOperationTypeDefinition.t;
                 directives : list Directive.t; position : Range.t }.
End SchemaDefinition.

Module ScalarTypeDefinition.
Record t := mk { description : option StringValue.t; name : Name.t;
                 directives : list Directive.t; position : Range.t }.
End ScalarTypeDefinition.

Module InputValueDefinition.
Record t := mk { description : option StringValue.t; name : Name.t;
                 input_type : Type_.t; default_value : option Value.t;
                 directives : list Directive.t; position : Range.t }.
End InputValueDefinition.

Module FieldDefinition.
Record t := mk { description : option StringValue.t; name : Name.t;
                 arguments : list InputValueDefinition.t; field_type : Type_.t;
                 directives : list Directive.t; position : Range.t }.
End FieldDefinition.

Module ObjectTypeDefinition.
Record t := mk { description : option StringValue.t; name : Name.t;
                 interfaces : list NamedType.t; directives : list Directive.t;
                 fields : list FieldDefinition.t; position : Range.t }.
End ObjectTypeDefinition.

Module InterfaceTypeDefinition.
Record t := mk { description : option StringValue.t; name : Name.t;
                 interfaces : list NamedType.t; directives : list Directive.t;
                 fields : list FieldDefinition.t; position : Range.t }.
End InterfaceTypeDefinition.

Module UnionTypeDefinition.
Record t := mk { description : option StringValue.t; name : Name.t;
                 directives : list Directive.t; member_types : list NamedType.t;
                 position : Range.t }.
End UnionTypeDefinition.

Module EnumValueDefinition.
Record t := mk { description : option StringValue.t; name : Name.t;
                 directives : list Directive.t; position : Range.t }.
End EnumValueDefinition.

Module EnumTypeDefinition.
Record t := mk { description : option StringValue.t; name : Name.t;
                 directives : list Directive.t; values : list EnumValueDefinition.t;
                 position : Range.t }.
End EnumTypeDefinition.

Module InputObjectTypeDefinition.
Record t := mk { description : option StringValue.t; name : Name.t;
                 directives : list Directive.t; fields : list InputValueDefinition.t;
                 position : Range.t }.
End InputObjectTypeDefinition.

(** [Definition] is a keyword of Rocq: the module is [Definition_]. *)
Module Definition_.
Inductive t :=
| OperationDefinition (d : OperationDefinition.t)
| FragmentDefinition (d : FragmentDefinition.t)
| SchemaDefinition (d : SchemaDefinition.t)
| ScalarTypeDefinition (d : ScalarTypeDefinition.t)
| ObjectTypeDefinition (d : ObjectTypeDefinition.t)
| InterfaceTypeDefinition (d : InterfaceTypeDefinition.t)
| UnionTypeDefinition (d : UnionTypeDefinition.t)
| EnumTypeDefinition (d : EnumTypeDefinition.t)
| InputObjectTypeDefinition (d : InputObjectTypeDefinition.t).
End Definition_.

Module Document.
Record t := mk { definitions : list Definition_.t; position : Range.t }.
End Document.

(* ------------------------------------------------------------------ *)
(** * src/helpers.rs: is_valid_name

    [char::is_alphabetic] is Unicode-aware; every name handed to it comes
    from a [Name] token of the lexer, which is ASCII, where it is
    [is_ascii_alphabetic]. *)

Definition is_valid_name (value : list char) : bool :=
  match value with
  | [] => false
  | c :: cs =>
      (is_ascii_alphabetic c || N.eqb c (ch "_"))
      && forallb (fun c => is_ascii_alphabetic c || is_ascii_digit c || N.eqb c (ch "_")) cs
  end.

(* ------------------------------------------------------------------ *)
(** * src/parser/mod.rs

    [Parser { tokens, ptr }]: the token vector never changes, so it is a
    section variable; the parser methods are computations of a state and
    error monad over [ptr].  The recursive methods and the loops take fuel,
    one unit per call or round. *)

Definition PM (A : Type) : Type := nat -> res (A * nat).

Definition ret {A} (a : A) : PM A := fun ptr => Ok (a, ptr).

Definition bind {A B} (m : PM A) (k : A -> PM B) : PM B :=
  fun ptr =>
    match m ptr with
    | Ok (a, ptr') => k a ptr'
    | Err d => Err d
    | Panic msg => Panic msg
    | OutOfFuel => OutOfFuel
    end.

Definition fail {A} (d : Diagnostic.t) : PM A := fun _ => Err d.
Definition panic {A} (msg : list char) : PM A := fun _ => Panic msg.
Definition out_of_fuel {A} : PM A := fun _ => OutOfFuel.

Notation "x <- m ;; k" := (bind m (fun x => k)) (at level 61, m at next level, right associativity).
Notation "m ;;; k" := (bind m (fun _ => k)) (at level 61, right associativity).

Definition is_punctuator (p : Punctuator.t) (token : LexicalToken.t) : bool :=
  LexicalTokenType.eqb (LexicalToken.token_type token) (LexicalTokenType.Punctuator p).

Definition is_name (n : string) (token : LexicalToken.t) : bool :=
  LexicalTokenType.eqb (LexicalToken.token_type token) (LexicalTokenType.Name (str n)).

Definition parse_error (message : list char) (position : Range.t) : Diagnostic.t :=
  Diagnostic.new DiagnosticSeverity.Error message position.

Definition zero_range : Range.t := Range.new (Position.new 0 0) (Position.new 0 0).

(** The [{:?}] rendering in the message of [expect_next] is abstracted to a
    fixed text. *)
Definition debug_token_type (_ : LexicalTokenType.t) : list char := str "<token>".
Definition debug_token (_ : LexicalToken.t) : list char := str "<token>".

Definition unwrap_none_message : list char :=
  str "called `Option::unwrap()` on a `None` value".

Section Parser.
Variable tokens : list LexicalToken.t.

Definition get_current_position : PM Range.t :=
  fun ptr =>
    Ok (match nth_error tokens ptr with
        | Some token => LexicalToken.position token
        | None => zero_range
        end, ptr).

Definition peek : PM LexicalToken.t :=
  fun ptr =>
    match nth_error tokens ptr with
    | Some token => Ok (token, ptr)
    | None => Err (parse_error (str "Unexpected EOF") zero_range)
    end.

Definition peek_safe : PM LexicalToken.t :=
  fun ptr =>
    match nth_error tokens ptr with
    | Some token => Ok (token, ptr)
    | None => Ok (LexicalToken.new LexicalTokenType.EOF zero_range, ptr)
    end.

Definition next : PM unit := fun ptr => Ok (tt, S ptr).

Definition expect_next (token_type : LexicalTokenType.t) : PM bool :=
  token <- peek ;;
  if LexicalTokenType.eqb (LexicalToken.token_type token) token_type then
    next ;;; ret true
  else
    position <- get_current_position ;;
    fail (parse_error (str "Unexpected token. Expected " ++ debug_token_type token_type
                         ++ str ", found " ++ debug_token token) position).

Definition parse_name_maybe : PM (option Name.t) :=
  position <- get_current_position ;;
  token <- peek ;;
  match LexicalToken.token_type token with
  | LexicalTokenType.Name name =>
      if is_valid_name name then
        next ;;; ret (Some (Name.mk name position))
      else fail (parse_error (str "Invalid name") position)
  | _ => ret None
  end.

Definition parse_name : PM Name.t :=
  maybe_name <- parse_name_maybe ;;
  match maybe_name with
  | Some name => ret name
  | None =>
      position <- get_current_position ;;
      fail (parse_error (str "Expected Name") position)
  end.

Definition parse_description : PM (option StringValue.t) :=
  token <- peek_safe ;;
  match LexicalToken.token_type token with
  | LexicalTokenType.StringValue value =>
      next ;;; ret (Some (StringValue.mk value false (LexicalToken.position token)))
  | _ => ret None
  end.

Definition parse_named_type : PM NamedType.t :=
  start_position <- get_current_position ;;
  name <- parse_name ;;
  end_position <- get_current_position ;;
  ret (NamedType.mk name (Range.new (Range.start start_position) (Range.end_ end_position))).

Definition parse_type_condition : PM NamedType.t :=
  start_position <- get_current_position ;;
  expect_next (LexicalTokenType.Name (str "on")) ;;;
  name <- parse_name ;;
  end_position <- get_current_position ;;
  ret (NamedType.mk name (Range.new (Range.start start_position) (Range.end_ end_position))).

Definition wrap_if_non_null (wrapped_type : Type_.t) : PM Type_.t :=
  start_position <- get_current_position ;;
  token <- peek ;;
  if negb (is_punctuator Punctuator.ExclamationMark token) then ret wrapped_type
  else
    next ;;;
    end_position <- get_current_position ;;
    ret (Type_.NonNullType wrapped_type
           (Range.new (Range.start start_position) (Range.end_ end_position))).

Fixpoint parse_type (fuel : nat) : PM Type_.t :=
  match fuel with
  | O => out_of_fuel
  | S fuel =>
      token <- peek ;;
      let start_position := LexicalToken.position token in
      if is_punctuator Punctuator.LeftBracket token then
        list_type <- parse_list_type fuel ;;
        wrap_if_non_null list_type
      else
        name_type <- parse_name ;;
        end_position <- get_current_position ;;
        wrap_if_non_null
          (Type_.NamedType (NamedType.mk name_type
             (Range.new (Range.start start_position) (Range.end_ end_position))))
  end
with parse_list_type (fuel : nat) : PM Type_.t :=
  match fuel with
  | O => out_of_fuel
  | S fuel =>
      start_position <- get_current_position ;;
      next ;;;
      wrapped_type <- parse_type fuel ;;
      token <- peek ;;
      if negb (is_punctuator Punctuator.RightBracket token) then
        fail (parse_error (str "Expected " ++ [DOUBLE_QUOTE] ++ str "]" ++ [DOUBLE_QUOTE])
                (LexicalToken.position token))
      else
        next ;;;
        end_position <- get_current_position ;;
        ret (Type_.ListType wrapped_type
               (Range.new (Range.start start_position) (Range.end_ end_position)))
  end.
Fixpoint parse_value (fuel : nat) : PM Value.t :=
  match fuel with
  | O => out_of_fuel
  | S fuel =>
      token <- peek ;;
      let position := LexicalToken.position token in
      match LexicalToken.token_type token with
      | LexicalTokenType.IntValue value =>
          next ;;; ret (Value.IntValue value position)
      | LexicalTokenType.FloatValue value =>
          next ;;; ret (Value.FloatValue value position)
      | LexicalTokenType.StringValue value =>
          next ;;; ret (Value.StringValue (StringValue.mk value false position))
      | LexicalTokenType.Name name =>
          if list_char_eqb name (str "true") then
            next ;;; ret (Value.BooleanValue true position)
          else if list_char_eqb name (str "false") then
            next ;;; ret (Value.BooleanValue false position)
          else if list_char_eqb name (str "null") then
            next ;;; ret (Value.NullValue position)
          else
            (* the enum value arm: the token is not consumed *)
            ret (Value.EnumValue name position)
      | LexicalTokenType.Punctuator Punctuator.LeftBracket => parse_list_value fuel
      | LexicalTokenType.Punctuator Punctuator.LeftBrace => parse_object_value fuel
      | LexicalTokenType.Punctuator Punctuator.DollarSign =>
          next ;;;
          name <- parse_name ;;
          ret (Value.Variable_ (Variable_.mk name position))
      | _ => fail (parse_error (str "Expected Value") position)
      end
  end
with parse_list_value (fuel : nat) : PM Value.t :=
  match fuel with
  | O => out_of_fuel
  | S fuel =>
      start_position <- get_current_position ;;
      next ;;;
      parse_list_value_loop fuel start_position []
  end
with parse_list_value_loop (fuel : nat) (start_position : Range.t) (values : list Value.t)
  : PM Value.t :=
  match fuel with
  | O => out_of_fuel
  | S fuel =>
      token <- peek ;;
      if is_punctuator Punctuator.RightBracket token then
        next ;;;
        end_position <- get_current_position ;;
        ret (Value.ListValue values
               (Range.new (Range.start start_position) (Range.end_ end_position)))
      else
        value <- parse_value fuel ;;
        parse_list_value_loop fuel start_position (values ++ [value])
  end
with parse_object_value (fuel : nat) : PM Value.t :=
  match fuel with
  | O => out_of_fuel
  | S fuel =>
      start_position <- get_current_position ;;
      next ;;;
      parse_object_value_loop fuel start_position []
  end
with parse_object_value_loop (fuel : nat) (start_position : Range.t)
    (object_fields : list Value.object_field) : PM Value.t :=
  match fuel with
  | O => out_of_fuel
  | S fuel =>
      token <- peek ;;
      if negb (is_punctuator Punctuator.RightBrace token) then
        object_field <- parse_object_field fuel ;;
        parse_object_value_loop fuel start_position (object_fields ++ [object_field])
      else
        (* the closing brace is left in place *)
        end_position <- get_current_position ;;
        ret (Value.ObjectValue object_fields
               (Range.new (Range.start start_position) (Range.end_ end_position)))
  end
with parse_object_field (fuel : nat) : PM Value.object_field :=
  match fuel with
  | O => out_of_fuel
  | S fuel =>
      start_position <- get_current_position ;;
      name <- parse_name ;;
      expect_next (LexicalTokenType.Punctuator Punctuator.Colon) ;;;
      value <- parse_value fuel ;;
      end_position <- get_current_position ;;
      ret (Value.ObjectField name value
             (Range.new (Range.start start_position) (Range.end_ end_position)))
  end.

Definition parse_argument (fuel : nat) : PM Argument.t :=
  start_position <- get_current_position ;;
  name <- parse_name ;;
  expect_next (LexicalTokenType.Punctuator Punctuator.Colon) ;;;
  value <- parse_value fuel ;;
  end_position <- get_current_position ;;
  ret (Argument.mk name value (Range.new (Range.start start_position) (Range.end_ end_position))).

Fixpoint parse_arguments_loop (fuel : nat) (arguments : list Argument.t)
  : PM (list Argument.t) :=
  match fuel with
  | O => out_of_fuel
  | S fuel =>
      token <- peek ;;
      if is_punctuator Punctuator.RightParenthesis token then
        next ;;; ret arguments
      else
        argument <- parse_argument fuel ;;
        parse_arguments_loop fuel (arguments ++ [argument])
  end.

Definition parse_arguments (fuel : nat) : PM (list Argument.t) :=
  token <- peek ;;
  if negb (is_punctuator Punctuator.LeftParenthesis token) then ret []
  else next ;;; parse_arguments_loop fuel [].

Fixpoint parse_directives_loop (fuel : nat) (directives : list Directive.t)
  : PM (list Directive.t) :=
  match fuel with
  | O => out_of_fuel
  | S fuel =>
      token <- peek ;;
      if negb (is_punctuator Punctuator.AtSign token) then ret directives
      else
        start_position <- get_current_position ;;
        next ;;;
        name <- parse_name ;;
        arguments <- parse_arguments fuel ;;
        end_position <- get_current_position ;;
        parse_directives_loop fuel
          (directives ++ [Directive.mk name
                            (Range.new (Range.start start_position) (Range.end_ end_position))
                            arguments])
  end.

Definition parse_directives (fuel : nat) : PM (list Directive.t) :=
  parse_directives_loop fuel [].

Definition parse_variable_definition (fuel : nat) : PM VariableDefinition.t :=
  token <- peek ;;
  let position := LexicalToken.position token in
  if negb (is_punctuator Punctuator.DollarSign token) then
    fail (parse_error (str "Expected " ++ [DOUBLE_QUOTE] ++ str "$" ++ [DOUBLE_QUOTE])
            (LexicalToken.position token))
  else
    next ;;;
    name <- parse_name ;;
    token <- peek ;;
    if negb (is_punctuator Punctuator.Colon token) then
      fail (parse_error (str "Expected " ++ [DOUBLE_QUOTE] ++ str ":" ++ [DOUBLE_QUOTE])
              (LexicalToken.position token))
    else
      next ;;;
      variable_type <- parse_type fuel ;;
      token <- peek ;;
      default_value <-
        (if is_punctuator Punctuator.EqualSign token then
           next ;;; v <- parse_value fuel ;; ret (Some v)
         else ret None) ;;
      end_position <- get_current_position ;;
      ret (VariableDefinition.mk
             (Variable_.mk name (Range.new (Range.start position) (Range.end_ end_position)))
             variable_type default_value
             (Range.new (Range.start position) (Range.end_ end_position))).

Fixpoint parse_variable_definitions_loop (fuel : nat)
    (variable_definitions : list VariableDefinition.t) : PM (list VariableDefinition.t) :=
  match fuel with
  | O => out_of_fuel
  | S fuel =>
      token <- peek ;;
      if is_punctuator Punctuator.RightParenthesis token then
        next ;;; ret variable_definitions
      else
        variable_definition <- parse_variable_definition fuel ;;
        parse_variable_definitions_loop fuel (variable_definitions ++ [variable_definition])
  end.

Definition parse_variable_definitions (fuel : nat) : PM (list VariableDefinition.t) :=
  token <- peek ;;
  if negb (is_punctuator Punctuator.LeftParenthesis token) then ret []
  else next ;;; parse_variable_definitions_loop fuel [].
Definition parse_fragment_spread (fuel : nat) : PM FragmentSpread.t :=
  position <- get_current_position ;;
  name <- parse_name ;;
  directives <- parse_directives fuel ;;
  end_position <- get_current_position ;;
  ret (FragmentSpread.mk name directives
         (Range.new (Range.start position) (Range.end_ end_position))).

Fixpoint parse_selection_set (fuel : nat) : PM Selection.selection_set :=
  match fuel with
  | O => out_of_fuel
  | S fuel =>
      position <- get_current_position ;;
      expect_next (LexicalTokenType.Punctuator Punctuator.LeftBrace) ;;;
      parse_selection_set_loop fuel position []
  end
with parse_selection_set_loop (fuel : nat) (position : Range.t)
    (selections : list Selection.t) : PM Selection.selection_set :=
  match fuel with
  | O => out_of_fuel
  | S fuel =>
      token <- peek ;;
      if is_punctuator Punctuator.RightBrace token then
        next ;;;
        end_position <- get_current_position ;;
        ret (Selection.SelectionSet selections
               (Range.new (Range.start position) (Range.end_ end_position)))
      else
        selection <- parse_selection fuel ;;
        parse_selection_set_loop fuel position (selections ++ [selection])
  end
with parse_inline_fragment (fuel : nat) : PM Selection.t :=
  match fuel with
  | O => out_of_fuel
  | S fuel =>
      position <- get_current_position ;;
      token <- peek ;;
      type_condition <-
        (if is_name "on" token then
           tc <- parse_type_condition ;; ret (Some tc)
         else ret None) ;;
      directives <- parse_directives fuel ;;
      selection_set <- parse_selection_set fuel ;;
      end_position <- get_current_position ;;
      ret (Selection.InlineFragment type_condition directives selection_set
             (Range.new (Range.start position) (Range.end_ end_position)))
  end
with parse_selection (fuel : nat) : PM Selection.t :=
  match fuel with
  | O => out_of_fuel
  | S fuel =>
      position <- get_current_position ;;
      token <- peek ;;
      match LexicalToken.token_type token with
      | LexicalTokenType.Punctuator Punctuator.Ellipsis =>
          next ;;;
          token <- peek ;;
          match LexicalToken.token_type token with
          | LexicalTokenType.Name name =>
              if list_char_eqb name (str "on") then parse_inline_fragment fuel
              else
                spread <- parse_fragment_spread fuel ;;
                ret (Selection.FragmentSpread spread)
          | _ =>
              current <- get_current_position ;;
              fail (parse_error (str "Expected Fragment Spread or Inline Fragment") current)
          end
      | LexicalTokenType.Name _ =>
          name <- parse_name_maybe ;;
          token <- peek ;;
          alias_name <-
            (if is_punctuator Punctuator.Colon token then
               next ;;;
               name' <- parse_name_maybe ;;
               ret (name, name')
             else ret (None, name)) ;;
          let '(alias, name) := alias_name in
          arguments <- parse_arguments fuel ;;
          directives <- parse_directives fuel ;;
          token <- peek ;;
          selection_set <-
            (if is_punctuator Punctuator.LeftBrace token then
               set <- parse_selection_set fuel ;; ret (Some set)
             else ret None) ;;
          end_position <- get_current_position ;;
          match name with
          | None => panic unwrap_none_message
          | Some name =>
              ret (Selection.Field alias name arguments directives selection_set
                     (Range.new (Range.start position) (Range.end_ end_position)))
          end
      | _ =>
          current <- get_current_position ;;
          fail (parse_error (str "Expected Selection") current)
      end
  end.

Definition parse_fragment_definition (fuel : nat) : PM FragmentDefinition.t :=
  start_position <- get_current_position ;;
  expect_next (LexicalTokenType.Name (str "fragment")) ;;;
  name <- parse_name ;;
  type_condition <- parse_type_condition ;;
  directives <- parse_directives fuel ;;
  selection_set <- parse_selection_set fuel ;;
  end_position <- get_current_position ;;
  ret (FragmentDefinition.mk name type_condition directives selection_set
         (Range.new (Range.start start_position) (Range.end_ end_position))).

Definition parse_operation_definition (fuel : nat) (operation_type : OperationType.t)
    (anonymous : bool) : PM OperationDefinition.t :=
  start_position <- get_current_position ;;
  (if negb anonymous then next else ret tt) ;;;
  name <- parse_name_maybe ;;
  variable_definitions <- parse_variable_definitions fuel ;;
  directives <- parse_directives fuel ;;
  selection_set <- parse_selection_set fuel ;;
  end_position <- get_current_position ;;
  ret (OperationDefinition.mk name operation_type variable_definitions selection_set
         directives (Range.new (Range.start start_position) (Range.end_ end_position))
         anonymous).

Fixpoint parse_schema_loop (fuel : nat) (operation_types : list RootOperationTypeDefinition.t)
  : PM (list RootOperationTypeDefinition.t) :=
  match fuel with
  | O => out_of_fuel
  | S fuel =>
      token <- peek ;;
      if is_punctuator Punctuator.RightBrace token then
        next ;;; ret operation_types
      else
        start_position <- get_current_position ;;
        operation_type_name <- parse_name ;;
        match OperationType.parse (Name.value operation_type_name) with
        | None =>
            fail (parse_error (str "Expected operation type")
                    (Name.position operation_type_name))
        | Some operation_type =>
            expect_next (LexicalTokenType.Punctuator Punctuator.Colon) ;;;
            named_type <- parse_named_type ;;
            end_position <- get_current_position ;;
            parse_schema_loop fuel
              (operation_types ++
                 [RootOperationTypeDefinition.mk operation_type named_type
                    (Range.new (Range.start start_position) (Range.end_ end_position))])
        end
  end.

Definition parse_schema_definition (fuel : nat) (description : option StringValue.t)
  : PM SchemaDefinition.t :=
  start_position <- get_current_position ;;
  expect_next (LexicalTokenType.Name (str "schema")) ;;;
  directives <- parse_directives fuel ;;
  expect_next (LexicalTokenType.Punctuator Punctuator.LeftBrace) ;;;
  operation_types <- parse_schema_loop fuel [] ;;
  end_position <- get_current_position ;;
  ret (SchemaDefinition.mk description operation_types directives
         (Range.new (Range.start start_position) (Range.end_ end_position))).

Definition parse_scalar_type_definition (fuel : nat) (description : option StringValue.t)
  : PM ScalarTypeDefinition.t :=
  start_position <- get_current_position ;;
  expect_next (LexicalTokenType.Name (str "scalar")) ;;;
  name <- parse_name ;;
  directives <- parse_directives fuel ;;
  end_position <- get_current_position ;;
  ret (ScalarTypeDefinition.mk description name directives
         (Range.new (Range.start start_position) (Range.end_ end_position))).
Fixpoint parse_interfaces_loop (fuel : nat) (interfaces : list NamedType.t)
  : PM (list NamedType.t) :=
  match fuel with
  | O => out_of_fuel
  | S fuel =>
      named_type <- parse_named_type ;;
      let interfaces := interfaces ++ [named_type] in
      token <- peek_safe ;;
      if negb (is_punctuator Punctuator.Ampersand token) then ret interfaces
      else next ;;; parse_interfaces_loop fuel interfaces
  end.

Definition parse_interfaces (fuel : nat) : PM (list NamedType.t) :=
  token <- peek_safe ;;
  if negb (is_name "implements" token) then ret []
  else next ;;; parse_interfaces_loop fuel [].

Definition parse_default_value (fuel : nat) : PM (option Value.t) :=
  token <- peek_safe ;;
  if negb (is_punctuator Punctuator.EqualSign token) then ret None
  else next ;;; v <- parse_value fuel ;; ret (Some v).

Definition parse_input_value_definition (fuel : nat) : PM InputValueDefinition.t :=
  start_position <- get_current_position ;;
  description <- parse_description ;;
  name <- parse_name ;;
  expect_next (LexicalTokenType.Punctuator Punctuator.Colon) ;;;
  input_type <- parse_type fuel ;;
  default_value <- parse_default_value fuel ;;
  directives <- parse_directives fuel ;;
  end_position <- get_current_position ;;
  ret (InputValueDefinition.mk description name input_type default_value directives
         (Range.new (Range.start start_position) (Range.end_ end_position))).

Fixpoint parse_field_arguments_loop (fuel : nat) (arguments : list InputValueDefinition.t)
  : PM (list InputValueDefinition.t) :=
  match fuel with
  | O => out_of_fuel
  | S fuel =>
      token <- peek_safe ;;
      if is_punctuator Punctuator.RightParenthesis token then next ;;; ret arguments
      else
        argument <- parse_input_value_definition fuel ;;
        parse_field_arguments_loop fuel (arguments ++ [argument])
  end.

Definition parse_field_arguments (fuel : nat) : PM (list InputValueDefinition.t) :=
  token <- peek_safe ;;
  if negb (is_punctuator Punctuator.LeftParenthesis token) then ret []
  else next ;;; parse_field_arguments_loop fuel [].

Definition parse_field_definition (fuel : nat) : PM FieldDefinition.t :=
  start_position <- get_current_position ;;
  description <- parse_description ;;
  name <- parse_name ;;
  arguments <- parse_field_arguments fuel ;;
  expect_next (LexicalTokenType.Punctuator Punctuator.Colon) ;;;
  field_type <- parse_type fuel ;;
  directives <- parse_directives fuel ;;
  end_position <- get_current_position ;;
  ret (FieldDefinition.mk description name arguments field_type directives
         (Range.new (Range.start start_position) (Range.end_ end_position))).

Fixpoint parse_fields_loop (fuel : nat) (fields : list FieldDefinition.t)
  : PM (list FieldDefinition.t) :=
  match fuel with
  | O => out_of_fuel
  | S fuel =>
      token <- peek_safe ;;
      if is_punctuator Punctuator.RightBrace token then next ;;; ret fields
      else
        field <- parse_field_definition fuel ;;
        parse_fields_loop fuel (fields ++ [field])
  end.

Definition parse_fields (fuel : nat) : PM (list FieldDefinition.t) :=
  expect_next (LexicalTokenType.Punctuator Punctuator.LeftBrace) ;;;
  parse_fields_loop fuel [].

Definition parse_object_type_definition (fuel : nat) (description : option StringValue.t)
  : PM ObjectTypeDefinition.t :=
  start_position <- get_current_position ;;
  expect_next (LexicalTokenType.Name (str "type")) ;;;
  name <- parse_name ;;
  interfaces <- parse_interfaces fuel ;;
  directives <- parse_directives fuel ;;
  fields <- parse_fields fuel ;;
  end_position <- get_current_position ;;
  ret (ObjectTypeDefinition.mk description name interfaces directives fields
         (Range.new (Range.start start_position) (Range.end_ end_position))).

Definition parse_interface_type_definition (fuel : nat) (description : option StringValue.t)
  : PM InterfaceTypeDefinition.t :=
  start_position <- get_current_position ;;
  expect_next (LexicalTokenType.Name (str "interface")) ;;;
  name <- parse_name ;;
  interfaces <- parse_interfaces fuel ;;
  directives <- parse_directives fuel ;;
  fields <- parse_fields fuel ;;
  end_position <- get_current_position ;;
  ret (InterfaceTypeDefinition.mk description name interfaces directives fields
         (Range.new (Range.start start_position) (Range.end_ end_position))).

Fixpoint parse_union_member_types_loop (fuel : nat) (member_types : list NamedType.t)
  : PM (list NamedType.t) :=
  match fuel with
  | O => out_of_fuel
  | S fuel =>
      token <- peek_safe ;;
      if is_punctuator Punctuator.VerticalBar token then
        next ;;;
        named_type <- parse_named_type ;;
        parse_union_member_types_loop fuel (member_types ++ [named_type])
      else ret member_types
  end.

Definition parse_union_member_types (fuel : nat) : PM (list NamedType.t) :=
  expect_next (LexicalTokenType.Punctuator Punctuator.EqualSign) ;;;
  named_type <- parse_named_type ;;
  parse_union_member_types_loop fuel [named_type].

Definition parse_union_type_definition (fuel : nat) (description : option StringValue.t)
  : PM UnionTypeDefinition.t :=
  start_position <- get_current_position ;;
  expect_next (LexicalTokenType.Name (str "union")) ;;;
  name <- parse_name ;;
  directives <- parse_directives fuel ;;
  member_types <- parse_union_member_types fuel ;;
  end_position <- get_current_position ;;
  ret (UnionTypeDefinition.mk description name directives member_types
         (Range.new (Range.start start_position) (Range.end_ end_position))).

Definition parse_enum_value_definition (fuel : nat) : PM EnumValueDefinition.t :=
  start_position <- get_current_position ;;
  description <- parse_description ;;
  name <- parse_name ;;
  directives <- parse_directives fuel ;;
  end_position <- get_current_position ;;
  ret (EnumValueDefinition.mk description name directives
         (Range.new (Range.start start_position) (Range.end_ end_position))).

Fixpoint parse_enum_values_loop (fuel : nat) (values : list EnumValueDefinition.t)
  : PM (list EnumValueDefinition.t) :=
  match fuel with
  | O => out_of_fuel
  | S fuel =>
      token <- peek_safe ;;
      if negb (is_punctuator Punctuator.RightBrace token) then
        value <- parse_enum_value_definition fuel ;;
        parse_enum_values_loop fuel (values ++ [value])
      else ret values
  end.

Definition parse_enum_values (fuel : nat) : PM (list EnumValueDefinition.t) :=
  expect_next (LexicalTokenType.Punctuator Punctuator.LeftBrace) ;;;
  value <- parse_enum_value_definition fuel ;;
  values <- parse_enum_values_loop fuel [value] ;;
  expect_next (LexicalTokenType.Punctuator Punctuator.RightBrace) ;;;
  ret values.

Definition parse_enum_type_definition (fuel : nat) (description : option StringValue.t)
  : PM EnumTypeDefinition.t :=
  start_position <- get_current_position ;;
  expect_next (LexicalTokenType.Name (str "enum")) ;;;
  name <- parse_name ;;
  directives <- parse_directives fuel ;;
  values <- parse_enum_values fuel ;;
  end_position <- get_current_position ;;
  ret (EnumTypeDefinition.mk description name directives values
         (Range.new (Range.start start_position) (Range.end_ end_position))).

Fixpoint parse_input_fields_loop (fuel : nat) (fields : list InputValueDefinition.t)
  : PM (list InputValueDefinition.t) :=
  match fuel with
  | O => out_of_fuel
  | S fuel =>
      token <- peek_safe ;;
      if negb (is_punctuator Punctuator.RightBrace token) then
        field <- parse_input_value_definition fuel ;;
        parse_input_fields_loop fuel (fields ++ [field])
      else ret fields
  end.

Definition parse_input_fields (fuel : nat) : PM (list InputValueDefinition.t) :=
  expect_next (LexicalTokenType.Punctuator Punctuator.LeftBrace) ;;;
  fields <- parse_input_fields_loop fuel [] ;;
  expect_next (LexicalTokenType.Punctuator Punctuator.RightBrace) ;;;
  ret fields.

Definition parse_input_object_type_definition (fuel : nat)
    (description : option StringValue.t) : PM InputObjectTypeDefinition.t :=
  start_position <- get_current_position ;;
  expect_next (LexicalTokenType.Name (str "input")) ;;;
  name <- parse_name ;;
  directives <- parse_directives fuel ;;
  fields <- parse_input_fields fuel ;;
  end_position <- get_current_position ;;
  ret (InputObjectTypeDefinition.mk description name directives fields
         (Range.new (Range.start start_position) (Range.end_ end_position))).

(** The [loop] of [parse_definitions]. *)
Fixpoint parse_definitions_loop (fuel : nat) (definitions : list Definition_.t)
  : PM (list Definition_.t) :=
  match fuel with
  | O => out_of_fuel
  | S fuel =>
      token <- peek_safe ;;
      if LexicalTokenType.eqb (LexicalToken.token_type token) LexicalTokenType.EOF then
        ret definitions
      else
      position <- get_current_position ;;
      if is_punctuator Punctuator.LeftBrace token then
        d <- parse_operation_definition fuel OperationType.Query true ;;
        parse_definitions_loop fuel (definitions ++ [Definition_.OperationDefinition d])
      else
      match (match LexicalToken.token_type token with
             | LexicalTokenType.Name name => OperationType.parse name
             | _ => None
             end) with
      | Some operation_type =>
          d <- parse_operation_definition fuel operation_type false ;;
          parse_definitions_loop fuel (definitions ++ [Definition_.OperationDefinition d])
      | None =>
      if is_name "fragment" token then
        d <- parse_fragment_definition fuel ;;
        parse_definitions_loop fuel (definitions ++ [Definition_.FragmentDefinition d])
      else
      description <- parse_description ;;
      token <- peek ;;
      if is_name "schema" token then
        d <- parse_schema_definition fuel description ;;
        parse_definitions_loop fuel (definitions ++ [Definition_.SchemaDefinition d])
      else if is_name "scalar" token then
        d <- parse_scalar_type_definition fuel description ;;
        parse_definitions_loop fuel (definitions ++ [Definition_.ScalarTypeDefinition d])
      else if is_name "type" token then
        d <- parse_object_type_definition fuel description ;;
        parse_definitions_loop fuel (definitions ++ [Definition_.ObjectTypeDefinition d])
      else if is_name "interface" token then
        d <- parse_interface_type_definition fuel description ;;
        parse_definitions_loop fuel (definitions ++ [Definition_.InterfaceTypeDefinition d])
      else if is_name "union" token then
        d <- parse_union_type_definition fuel description ;;
        parse_definitions_loop fuel (definitions ++ [Definition_.UnionTypeDefinition d])
      else if is_name "enum" token then
        d <- parse_enum_type_definition fuel description ;;
        parse_definitions_loop fuel (definitions ++ [Definition_.EnumTypeDefinition d])
      else if is_name "input" token then
        d <- parse_input_object_type_definition fuel description ;;
        parse_definitions_loop fuel
          (definitions ++ [Definition_.InputObjectTypeDefinition d])
      else
        fail (parse_error (str "Expected operation definition") position)
      end
  end.

Definition parse_definitions (fuel : nat) : PM (list Definition_.t) :=
  parse_definitions_loop fuel [].

Definition parse_document (fuel : nat) : PM Document.t :=
  start_position <- get_current_position ;;
  definitions <- parse_definitions fuel ;;
  end_position <- get_current_position ;;
  ret (Document.mk definitions
         (Range.new (Range.start start_position) (Range.end_ end_position))).
End Parser.

(** [pub fn parse(source: String)]: lex, then [Parser::new(tokens).parse()],
    the parser running on [fuel]. *)
Definition parse (fuel : nat) (source : list char) : res Document.t :=
  tokens <-? lex source ;;
  r <-? parse_document tokens fuel 0 ;;
  Ok (fst r).

(* ------------------------------------------------------------------ *)
(** * Notions used to state the properties *)

(** (line, character) lexicographic order. *)
Definition position_le (p q : Position.t) : bool :=
  Nat.ltb (Position.line p) (Position.line q)
  || (Nat.eqb (Position.line p) (Position.line q)
      && Nat.leb (Position.character p) (Position.character q)).

(** The type of the first variable definition of the first definition. *)
Definition first_variable_type (doc : Document.t) : option Type_.t :=
  match Document.definitions doc with
  | Definition_.OperationDefinition od :: _ =>
      match OperationDefinition.variable_definitions od with
      | vd :: _ => Some (VariableDefinition.variable_type vd)
      | [] => None
      end
  | _ => None
  end.

(** A type with its positions erased. *)
Inductive TypeShape :=
| SNamed (name : list char)
| SList (inner : TypeShape)
| SNonNull (inner : TypeShape).

Fixpoint type_shape (ty : Type_.t) : TypeShape :=
  match ty with
  | Type_.NamedType n => SNamed (Name.value (NamedType.name n))
  | Type_.ListType inner _ => SList (type_shape inner)
  | Type_.NonNullType inner _ => SNonNull (type_shape inner)
  end.

(** Parsing a type source on its own: lex it and run [parse_type] from the
    first token. *)
Definition parse_type_source (fuel : nat) (source : list char) : res Type_.t :=
  tokens <-? lex source ;;
  r <-? parse_type tokens fuel 0 ;;
  Ok (fst r).

Definition severity_is_error (d : Diagnostic.t) : bool :=
  match Diagnostic.severity d with DiagnosticSeverity.Error => true | _ => false end.

Definition is_error {A} (r : res A) : bool :=
  match r with Err d => severity_is_error d | _ => false end.

(** Inputs made only of ignored characters: spaces, tabs, commas, line
    terminators and comments (a [#] up to the next line terminator). *)
Fixpoint only_ignored (s : list char) : bool :=
  match s with
  | [] => true
  | c :: r =>
      if N.eqb c SPACE || N.eqb c TAB || N.eqb c (ch ",") || is_line_terminator c
      then only_ignored r
      else if N.eqb c (ch "#") then in_comment r
      else false
  end
with in_comment (s : list char) : bool :=
  match s with
  | [] => true
  | c :: r => if is_line_terminator c then only_ignored r else in_comment r
  end.

(** The escape sequences of a GraphQL string as the spec lists them. *)
Definition escape_meaning (e : char) : option char :=
  if N.eqb e (ch "n") then Some NEW_LINE
  else if N.eqb e (ch "r") then Some CARRIAGE_RETURN
  else if N.eqb e (ch "t") then Some TAB
  else if N.eqb e BACKSLASH then Some BACKSLASH
  else if N.eqb e DOUBLE_QUOTE then Some DOUBLE_QUOTE
  else None.

(** The text between the quotes of a string literal, decoded: [None] when
    it is not a well-formed body (an unescaped quote or line terminator, or
    a bad or unfinished escape). *)
Fixpoint decode_escapes (raw : list char) : option (list char) :=
  match raw with
  | [] => Some []
  | c :: r =>
      if N.eqb c BACKSLASH then
        match r with
        | e :: r' =>
            match escape_meaning e, decode_escapes r' with
            | Some d, Some ds => Some (d :: ds)
            | _, _ => None
            end
        | [] => None
        end
      else if N.eqb c DOUBLE_QUOTE || is_line_terminator c then None
      else option_map (cons c) (decode_escapes r)
  end.

Definition is_eof (token : LexicalToken.t) : bool :=
  match LexicalToken.token_type token with LexicalTokenType.EOF => true | _ => false end.

(** The tokens other than the end-of-input one. *)
Definition not_eof (token : LexicalToken.t) : Prop := is_eof token = false.

(** The range of the token at [ptr], as [get_current_position] reads it. *)
Definition start_of (tokens : list LexicalToken.t) (ptr : nat) : Range.t :=
  match nth_error tokens ptr with
  | Some token => LexicalToken.position token
  | None => zero_range
  end.

(** The property of an operation definition parsed from [tokens]: it starts
    at the token [i], and it is anonymous iff it has no name and that token
    is the brace of the bare form; otherwise that token is an operation
    keyword. *)
Definition anonymous_spec (tokens : list LexicalToken.t) (d : Definition_.t) : Prop :=
  match d with
  | Definition_.OperationDefinition od =>
      exists i token,
        nth_error tokens i = Some token
        /\ Range.start (OperationDefinition.position od) = Range.start (LexicalToken.position token)
        /\ (OperationDefinition.anonymous od = true
            <-> OperationDefinition.name od = None
                /\ LexicalToken.token_type token
                   = LexicalTokenType.Punctuator Punctuator.LeftBrace)
        /\ (OperationDefinition.anonymous od = false ->
            exists keyword operation_type,
              LexicalToken.token_type token = LexicalTokenType.Name keyword
              /\ OperationType.parse keyword = Some operation_type
              /\ OperationDefinition.operation od = operation_type)
  | _ => True
  end.

(** The fields of the only definition of a document, when it is an object
    or an input object type definition. *)
Definition only_object_fields (r : res Document.t) : option (list FieldDefinition.t) :=
  match r with
  | Ok doc =>
      match Document.definitions doc with
      | [Definition_.ObjectTypeDefinition d] => Some (ObjectTypeDefinition.fields d)
      | _ => None
      end
  | _ => None
  end.

Definition only_input_fields (r : res Document.t) : option (list InputValueDefinition.t) :=
  match r with
  | Ok doc =>
      match Document.definitions doc with
      | [Definition_.InputObjectTypeDefinition d] => Some (InputObjectTypeDefinition.fields d)
      | _ => None
      end
  | _ => None
  end.

(** An outcome that is a result or a diagnostic: no panic, fuel enough. *)
Definition ok_or_err {A} (r : res A) : Prop :=
  match r with Ok _ | Err _ => True | _ => False end.

(** A token on one line, at least one column wide, and holding a valid name
    if it is a Name token. *)
Definition token_ok (token : LexicalToken.t) : Prop :=
  Position.line (Range.start (LexicalToken.position token))
    = Position.line (Range.end_ (LexicalToken.position token))
  /\ Position.character (Range.start (LexicalToken.position token))
     < Position.character (Range.end_ (LexicalToken.position token))
  /\ (forall v, LexicalToken.token_type token = LexicalTokenType.Name v -> is_valid_name v = true).

(** The value built by the enum arm of [parse_value]. *)
Definition is_enum_value (v : Value.t) : bool :=
  match v with Value.EnumValue _ _ => true | _ => false end.

(** The tokens of a source text, for the sample runs below. *)
Definition lexed (source : string) : list LexicalToken.t :=
  match lex (str source) with Ok tokens => tokens | _ => [] end.

Definition tokens_enum := Eval vm_compute in lexed "Red)".
Definition tokens_object := Eval vm_compute in lexed "{a: 1})".
Definition tokens_enum_list := Eval vm_compute in lexed "[Red]".
Definition tokens_parens := Eval vm_compute in lexed "()".
Definition tokens_selection := Eval vm_compute in lexed "{ a }".
Definition tokens_union := Eval vm_compute in lexed "= A | B".
Definition tokens_names := Eval vm_compute in lexed "x y".

Definition tokens_schema_foo := Eval vm_compute in lexed "schema { foo: Foo }".
Definition tokens_braces := Eval vm_compute in lexed "{ }".

(** The rounds of the scan loop [lex_while]: [lex_reaches tokens lx
    tokens' lx'] holds when the loop, started with the token list [tokens]
    and the state [lx], comes to the token list [tokens'] and the state
    [lx'] after some number of rounds. *)
Inductive lex_reaches : list LexicalToken.t -> Lexer.t -> list LexicalToken.t -> Lexer.t -> Prop :=
| lex_reaches_refl tokens lx : lex_reaches tokens lx tokens lx
| lex_reaches_step tokens lx tokens1 lx1 tokens2 lx2 :
    (forall fuel, Lexer.lex_while (S fuel) tokens lx = Lexer.lex_while fuel tokens1 lx1) ->
    lex_reaches tokens1 lx1 tokens2 lx2 ->
    lex_reaches tokens lx tokens2 lx2.

(** A string literal with the invalid escape backslash, q after [{ f(a: ]. *)
Definition source_bad_escape : list char :=
  str "{ f(a: " ++ DOUBLE_QUOTE :: BACKSLASH :: str "q" ++ DOUBLE_QUOTE :: str ") }".

(* ------------------------------------------------------------------ *)
(** * Concrete runs *)

(** For a statement [forall fuel, n <= fuel -> P fuel]: peel [n] units of
    fuel off, leaving the rest of it abstract. *)
Tactic Notation "fuel_at_least" int_or_var(n) :=
  let fuel := fresh "fuel" in
  let H := fresh "H" in
  intros fuel H;
  do n (destruct fuel as [|fuel]; [lia|]).

(** C1 (code_bug): an alias colon followed by a non-name token.  On
    [{ a: 1 }] the second [parse_name_maybe] of [parse_selection] returns
    [None] and [name.unwrap()] panics: [parse] does not return a
    diagnostic. *)
Theorem parse_alias_colon_int_panics :
  forall fuel, 5 <= fuel -> parse fuel (str "{ a: 1 }") = Panic unwrap_none_message.
Proof. fuel_at_least 5. vm_compute. reflexivity. Qed.

Lemma parse_alias_colon_int_panics_witness :
  5 <= 5 /\ parse 5 (str "{ a: 1 }") = Panic unwrap_none_message.
Proof. split; [lia | apply (parse_alias_colon_int_panics 5); lia]. Defined.

(** C2 (code_bug): in [query ($v: Int!) { a }] the variable's type is a
    [NonNullType] whose range starts at the [!] (line 0, character 14),
    after the start of the [NamedType] it wraps (line 0, character 11):
    [wrap_if_non_null] takes its start position after the wrapped type. *)
Theorem non_null_type_starts_after_wrapped_type :
  forall fuel, 5 <= fuel ->
    match parse fuel (str "query ($v: Int!) { a }") with
    | Ok doc =>
        match first_variable_type doc with
        | Some (Type_.NonNullType inner r) =>
            Some (Range.start r, Range.start (Type_.position inner),
                  position_le (Range.start r) (Range.start (Type_.position inner)))
        | _ => None
        end
    | _ => None
    end = Some (Position.new 0 14, Position.new 0 11, false).
Proof. fuel_at_least 5. vm_compute. reflexivity. Qed.

Lemma non_null_type_starts_after_wrapped_type_witness :
  5 <= 5 /\
    match parse 5 (str "query ($v: Int!) { a }") with
    | Ok doc =>
        match first_variable_type doc with
        | Some (Type_.NonNullType inner r) =>
            Some (Range.start r, Range.start (Type_.position inner),
                  position_le (Range.start r) (Range.start (Type_.position inner)))
        | _ => None
        end
    | _ => None
    end = Some (Position.new 0 14, Position.new 0 11, false).
Proof. split; [lia | apply (non_null_type_starts_after_wrapped_type 5); lia]. Defined.

(** C3 (code_bug): for the input [?] the lexer's error range is the
    zero-width range (line 0, character 0)-(line 0, character 0), not the one
    character (0, 0)-(0, 1): the end position is read before the char is
    consumed. *)
Theorem lex_unexpected_character_range :
  lex (str "?")
  = Err (Diagnostic.new DiagnosticSeverity.Error (str "Unexpected character: ?")
           (Range.new (Position.new 0 0) (Position.new 0 0))).
Proof. vm_compute. reflexivity. Qed.

(** C5: [[[Int!]!]] parses as
    ListType(NonNullType(ListType(NonNullType(NamedType(Int))))); and in
    general a [!] right after a bracketed list type, or right after a bare
    name, wraps that type in a [NonNullType] and is consumed. *)
Theorem parse_type_list_non_null_compose :
  forall fuel, 5 <= fuel ->
    match parse_type_source fuel (str "[[Int!]!]") with
    | Ok ty => Some (type_shape ty)
    | _ => None
    end = Some (SList (SNonNull (SList (SNonNull (SNamed (str "Int"))))))
    /\ (forall tokens p p1 inner bracket bang,
          nth_error tokens p = Some bracket ->
          LexicalToken.token_type bracket = LexicalTokenType.Punctuator Punctuator.LeftBracket ->
          parse_list_type tokens fuel p = Ok (inner, p1) ->
          nth_error tokens p1 = Some bang ->
          LexicalToken.token_type bang = LexicalTokenType.Punctuator Punctuator.ExclamationMark ->
          exists r, parse_type tokens (S fuel) p = Ok (Type_.NonNullType inner r, S p1))
    /\ (forall tokens p name_token name bang,
          nth_error tokens p = Some name_token ->
          LexicalToken.token_type name_token = LexicalTokenType.Name name ->
          is_valid_name name = true ->
          nth_error tokens (S p) = Some bang ->
          LexicalToken.token_type bang = LexicalTokenType.Punctuator Punctuator.ExclamationMark ->
          exists r1 r2,
            parse_type tokens (S fuel) p
            = Ok (Type_.NonNullType
                    (Type_.NamedType
                       (NamedType.mk (Name.mk name (LexicalToken.position name_token)) r1))
                    r2, S (S p))).
Proof.
  intros fuel Hfuel. split; [|split].
  - do 5 (destruct fuel as [|fuel]; [lia|]). vm_compute. reflexivity.
  - intros tokens p p1 inner bracket bang Hb Hbt Hl Hn Hnt.
    cbn [parse_type]. unfold bind at 1, peek at 1. rewrite Hb.
    unfold is_punctuator at 1. rewrite Hbt. cbn -[parse_list_type].
    unfold bind. rewrite Hl. unfold wrap_if_non_null, bind, get_current_position, peek.
    rewrite Hn. unfold is_punctuator. rewrite Hnt. cbn.
    eexists. reflexivity.
  - intros tokens p name_token name bang Hn Hnt Hv Hb Hbt.
    cbn [parse_type]. unfold bind at 1, peek at 1. rewrite Hn.
    unfold is_punctuator at 1. rewrite Hnt. cbn -[is_valid_name].
    unfold parse_name, parse_name_maybe, bind, get_current_position, peek.
    rewrite Hn, Hnt, Hv. cbn -[is_valid_name].
    unfold wrap_if_non_null, bind, get_current_position, peek.
    rewrite Hb. unfold is_punctuator. rewrite Hbt. cbn.
    do 2 eexists. reflexivity.
Qed.

Lemma parse_type_list_non_null_compose_witness :
  5 <= 5 /\
    match parse_type_source 5 (str "[[Int!]!]") with
    | Ok ty => Some (type_shape ty)
    | _ => None
    end = Some (SList (SNonNull (SList (SNonNull (SNamed (str "Int")))))).
Proof.
  split; [lia|].
  exact (proj1 (parse_type_list_non_null_compose 5 (le_n 5))).
Defined.

(* ------------------------------------------------------------------ *)
(** * General properties of the lexer *)

Lemma res_bind_ok {A B} (m : res A) (k : A -> res B) x :
  res_bind m k = Ok x -> exists y, m = Ok y /\ k y = Ok x.
Proof. destruct m; simpl; try discriminate; eauto. Qed.

Lemma tokenize_string_token lx tok lx' :
  Lexer.tokenize_string lx = Ok (tok, lx') ->
  exists v, LexicalToken.token_type tok = LexicalTokenType.StringValue v.
Proof.
  unfold Lexer.tokenize_string; intros H.
  apply res_bind_ok in H as [[c lx1] [_ H]].
  apply res_bind_ok in H as [[v lx2] [_ H]].
  injection H as <- _. eexists; reflexivity.
Qed.

Lemma tokenize_number_token lx tok lx' :
  Lexer.tokenize_number lx = Ok (tok, lx') ->
  (exists v, LexicalToken.token_type tok = LexicalTokenType.IntValue v)
  \/ (exists f, LexicalToken.token_type tok = LexicalTokenType.FloatValue f).
Proof.
  unfold Lexer.tokenize_number, Lexer.int_token; intros H.
  repeat match type of H with
         | context [match ?x with _ => _ end] => destruct x
         end; try discriminate;
  injection H as <- _; first [left; eexists; reflexivity | right; eexists; reflexivity].
Qed.

Lemma Forall_snoc_not_eof tokens tok :
  Forall not_eof tokens -> is_eof tok = false -> Forall not_eof (tokens ++ [tok]).
Proof. intros H1 H2. apply Forall_app. split; [exact H1|]. constructor; [exact H2|constructor]. Qed.

Lemma lex_while_no_eof fuel :
  forall tokens lx tokens' lx',
    Lexer.lex_while fuel tokens lx = Ok (tokens', lx') ->
    Forall not_eof tokens -> Forall not_eof tokens'.
Proof.
  induction fuel as [|fuel IH]; intros tokens lx tokens' lx' H HF; [discriminate|].
  cbn [Lexer.lex_while] in H.
  destruct (Lexer.peek lx) as [c|]; [|injection H as <- _; exact HF].
  repeat match type of H with
         | context [if ?b then _ else _] => destruct b
         | context [match char_to_punctuator ?c with _ => _ end] => destruct (char_to_punctuator c)
         | context [match Lexer.consume_while ?f ?l with _ => _ end] =>
             destruct (Lexer.consume_while f l)
         end;
  try discriminate;
  try (apply res_bind_ok in H as [[tok lx1] [Ht H]]);
  try (apply res_bind_ok in H as [? [_ H]]; apply res_bind_ok in H as [? [_ H]]);
  (eapply IH; [exact H|]);
  try exact HF;
  apply Forall_snoc_not_eof; try exact HF;
  unfold is_eof; try reflexivity.
  - destruct (tokenize_string_token _ _ _ Ht) as [v ->]; reflexivity.
  - destruct (tokenize_number_token _ _ _ Ht) as [[v ->]|[v ->]]; reflexivity.
  - destruct (tokenize_number_token _ _ _ Ht) as [[v ->]|[v ->]]; reflexivity.
Qed.

(** C7: when [lex] succeeds, its tokens are the ones the scan loop pushed,
    none of which is an EOF token, followed by one EOF token whose range is
    empty and sits at the line and character where the scan stopped. *)
Theorem lex_tokens_end_with_single_eof :
  forall source tokens,
    lex source = Ok tokens ->
    exists pre final,
      Lexer.lex_while (S (List.length source)) [] (Lexer.new source) = Ok (pre, final)
      /\ tokens = pre ++ [LexicalToken.new LexicalTokenType.EOF
                            (Range.new (Position.new (Lexer.line final) (Lexer.character final))
                               (Position.new (Lexer.line final) (Lexer.character final)))]
      /\ Forall (fun token => is_eof token = false) pre.
Proof.
  unfold lex, Lexer.lex; intros source tokens H.
  apply res_bind_ok in H as [[pre final] [Hw H]].
  injection H as <-.
  exists pre, final. split; [exact Hw|]. split; [reflexivity|].
  exact (lex_while_no_eof _ _ _ _ _ Hw (Forall_nil _)).
Qed.

Lemma lex_tokens_end_with_single_eof_witness :
  exists tokens,
    lex (str "{ a }") = Ok tokens
    /\ exists pre final,
      Lexer.lex_while (S (List.length (str "{ a }"))) [] (Lexer.new (str "{ a }"))
      = Ok (pre, final)
      /\ tokens = pre ++ [LexicalToken.new LexicalTokenType.EOF
                            (Range.new (Position.new (Lexer.line final) (Lexer.character final))
                               (Position.new (Lexer.line final) (Lexer.character final)))]
      /\ Forall (fun token => is_eof token = false) pre.
Proof.
  eexists. split; [vm_compute; reflexivity|].
  apply lex_tokens_end_with_single_eof. vm_compute. reflexivity.
Defined.

Lemma unescape_escape_meaning e : Lexer.unescape e = escape_meaning e.
Proof. reflexivity. Qed.

Lemma string_loop_ok n :
  forall cs character line acc v lx',
    List.length cs <= n ->
    Lexer.string_loop cs character line acc = Ok (v, lx') ->
    exists raw d,
      cs = raw ++ DOUBLE_QUOTE :: Lexer.rest lx'
      /\ decode_escapes raw = Some d
      /\ v = acc ++ d.
Proof.
  induction n as [|n IH]; intros cs character line acc v lx' Hl H;
    (destruct cs as [|c cs']; [discriminate|]); [simpl in Hl; lia|].
  cbn [Lexer.string_loop] in H.
  destruct (N.eqb c DOUBLE_QUOTE) eqn:Hq.
  - injection H as <- <-. apply N.eqb_eq in Hq; subst c.
    exists [], []. rewrite app_nil_r. split; reflexivity || (split; reflexivity).
  - destruct (N.eqb c BACKSLASH) eqn:Hb.
    + destruct cs' as [|e cs'']; [discriminate|].
      destruct (Lexer.unescape e) as [d0|] eqn:He; [|discriminate].
      simpl in Hl.
      destruct (IH cs'' _ _ _ _ _ ltac:(lia) H) as [raw [d [-> [Hd ->]]]].
      exists (c :: e :: raw), (d0 :: d).
      split; [reflexivity|]. split.
      * cbn [decode_escapes]. rewrite Hb. rewrite <- unescape_escape_meaning, He, Hd. reflexivity.
      * rewrite <- app_assoc. reflexivity.
    + destruct (is_line_terminator c) eqn:Ht; [discriminate|].
      simpl in Hl.
      destruct (IH cs' _ _ _ _ _ ltac:(lia) H) as [raw [d [-> [Hd ->]]]].
      exists (c :: raw), (c :: d).
      split; [reflexivity|]. split.
      * cbn [decode_escapes]. rewrite Hb, Hq, Ht, Hd. reflexivity.
      * rewrite <- app_assoc. reflexivity.
Qed.

Lemma string_loop_prefix n :
  forall pre d cs character line acc,
    List.length pre <= n ->
    decode_escapes pre = Some d ->
    exists character',
      Lexer.string_loop (pre ++ cs) character line acc
      = Lexer.string_loop cs character' line (acc ++ d).
Proof.
  induction n as [|n IH]; intros pre d cs character line acc Hl Hd.
  - destruct pre; [|simpl in Hl; lia].
    injection Hd as <-. exists character. rewrite app_nil_r. reflexivity.
  - destruct pre as [|c pre'].
    + injection Hd as <-. exists character. rewrite app_nil_r. reflexivity.
    + cbn [decode_escapes] in Hd. simpl in Hl.
      destruct (N.eqb c BACKSLASH) eqn:Hb.
      * destruct pre' as [|e pre'']; [discriminate|].
        destruct (escape_meaning e) as [d0|] eqn:He; [|discriminate].
        destruct (decode_escapes pre'') as [ds|] eqn:Hds; [|discriminate].
        injection Hd as <-. simpl in Hl.
        destruct (IH pre'' ds cs (S (S character)) line (acc ++ [d0]) ltac:(lia) Hds)
          as [character' Heq].
        exists character'. cbn [app Lexer.string_loop].
        rewrite Hb, unescape_escape_meaning, He.
        destruct (N.eqb c DOUBLE_QUOTE) eqn:Hq.
        { apply N.eqb_eq in Hq. apply N.eqb_eq in Hb. rewrite Hb in Hq. discriminate. }
        rewrite Heq, <- app_assoc. reflexivity.
      * destruct (N.eqb c DOUBLE_QUOTE || is_line_terminator c) eqn:Hqt; [discriminate|].
        apply orb_false_iff in Hqt as [Hq Ht].
        destruct (decode_escapes pre') as [ds|] eqn:Hds; [|discriminate].
        injection Hd as <-.
        destruct (IH pre' ds cs (S character) line (acc ++ [c]) ltac:(lia) Hds)
          as [character' Heq].
        exists character'. cbn [app Lexer.string_loop].
        rewrite Hq, Hb, Ht, Heq, <- app_assoc. reflexivity.
Qed.

Lemma lex_while_string fuel tokens lx :
  Lexer.peek lx = Some DOUBLE_QUOTE ->
  Lexer.lex_while (S fuel) tokens lx
  = res_bind (Lexer.tokenize_string lx)
      (fun r => let '(token, lx1) := r in Lexer.lex_while fuel (tokens ++ [token]) lx1).
Proof. intros H. cbn [Lexer.lex_while]. rewrite H. reflexivity. Qed.

Lemma only_ignored_cons c r :
  only_ignored (c :: r) = true ->
  ((Lexer.is_ignored c = true \/
    (Lexer.is_ignored c = false /\ is_line_terminator c = true)) /\ only_ignored r = true)
  \/ (c = ch "#" /\ in_comment r = true).
Proof.
  cbn [only_ignored]. unfold Lexer.is_ignored.
  destruct (N.eqb_spec c SPACE) as [->|]; [left; auto|].
  destruct (N.eqb_spec c TAB) as [->|]; [left; auto|].
  destruct (N.eqb_spec c (ch ",")) as [->|]; [left; auto|].
  destruct (is_line_terminator c) eqn:Ht.
  - intros H. left. split; [|exact H].
    unfold is_line_terminator in Ht.
    destruct (N.eqb_spec c NEW_LINE) as [->|]; [right; auto|].
    destruct (N.eqb_spec c CARRIAGE_RETURN) as [->|]; [right; auto|discriminate].
  - cbn [orb]. destruct (N.eqb_spec c (ch "#")) as [->|]; [right; auto|discriminate].
Qed.

Lemma comment_skip cs :
  forall character line,
    in_comment cs = true ->
    only_ignored (Lexer.rest
      (Lexer.ignore_while_from (fun c => negb (is_line_terminator c)) cs character line)) = true
    /\ List.length (Lexer.rest
      (Lexer.ignore_while_from (fun c => negb (is_line_terminator c)) cs character line))
       <= List.length cs.
Proof.
  induction cs as [|c cs IH]; intros character line H; [split; reflexivity|].
  cbn [in_comment] in H. cbn [Lexer.ignore_while_from].
  destruct (is_line_terminator c) eqn:Ht; cbn [negb].
  - split; [|reflexivity]. cbn [Lexer.rest only_ignored]. rewrite Ht, !orb_true_r. exact H.
  - destruct (IH (S character) line H) as [H1 H2]. split; [exact H1|cbn [List.length]; lia].
Qed.

Lemma lex_while_ignored fuel :
  forall tokens lx,
    only_ignored (Lexer.rest lx) = true ->
    List.length (Lexer.rest lx) < fuel ->
    exists lx', Lexer.lex_while fuel tokens lx = Ok (tokens, lx').
Proof.
  induction fuel as [|fuel IH]; intros tokens [rest character line] H Hl; [cbn in Hl; lia|].
  cbn [Lexer.rest] in H, Hl.
  destruct rest as [|c r]; [exists (Lexer.mk [] character line); reflexivity|].
  cbn [List.length] in Hl.
  cbn [Lexer.lex_while Lexer.peek Lexer.rest hd_error].
  destruct (only_ignored_cons c r H) as [[[Hi|[Hi Ht]] Hr]|[-> Hc]].
  - rewrite Hi. apply IH; [exact Hr|cbn; lia].
  - rewrite Hi, Ht. apply IH; [exact Hr|cbn; lia].
  - cbn -[Lexer.lex_while Lexer.ignore_while_from].
    cbn [Lexer.ignore_while Lexer.ignore_while_from Lexer.rest Lexer.character Lexer.line].
    destruct (comment_skip r (S character) line Hc) as [H1 H2].
    apply IH; [exact H1|]. eapply Nat.le_lt_trans; [exact H2|lia].
Qed.

(** C10: the empty input parses to a document with no definitions and the
    empty range at (0, 0); any input made only of spaces, tabs, commas, line
    terminators and comments parses to a document with no definitions. *)
Theorem parse_only_ignored_no_definitions :
  forall fuel, 1 <= fuel ->
    parse fuel (str "") = Ok (Document.mk [] zero_range)
    /\ forall source,
         only_ignored source = true ->
         exists doc, parse fuel source = Ok doc /\ Document.definitions doc = [].
Proof.
  intros fuel Hf. destruct fuel as [|fuel]; [lia|]. split; [reflexivity|].
  intros source H.
  destruct (lex_while_ignored (S (List.length source)) [] (Lexer.new source) H (le_n _))
    as [lx' Hw].
  unfold parse, lex, Lexer.lex. cbn [Lexer.rest Lexer.new]. rewrite Hw.
  eexists. split; reflexivity.
Qed.

Lemma parse_only_ignored_no_definitions_witness :
  1 <= 1
  /\ parse 1 (str "") = Ok (Document.mk [] zero_range)
  /\ exists doc, parse 1 (str " ,# c") = Ok doc /\ Document.definitions doc = [].
Proof.
  split; [lia|]. split.
  - exact (proj1 (parse_only_ignored_no_definitions 1 (le_n 1))).
  - apply (proj2 (parse_only_ignored_no_definitions 1 (le_n 1))). reflexivity.
Defined.

(* ------------------------------------------------------------------ *)
(** * Operation definitions *)

Lemma parse_operation_definition_ok tokens fuel operation_type anonymous ptr od ptr' :
  parse_operation_definition tokens fuel operation_type anonymous ptr = Ok (od, ptr') ->
  OperationDefinition.anonymous od = anonymous
  /\ OperationDefinition.operation od = operation_type
  /\ Range.start (OperationDefinition.position od) = Range.start (start_of tokens ptr)
  /\ (anonymous = true ->
      forall token, nth_error tokens ptr = Some token ->
      LexicalToken.token_type token = LexicalTokenType.Punctuator Punctuator.LeftBrace ->
      OperationDefinition.name od = None).
Proof.
  unfold parse_operation_definition, bind, get_current_position.
  intros H.
  destruct anonymous.
  - cbn [negb ret] in H.
    destruct (parse_name_maybe tokens ptr) as [[name p1]| | |] eqn:Hn; try discriminate.
    destruct (parse_variable_definitions tokens fuel p1) as [[vds p2]| | |]; try discriminate.
    destruct (parse_directives tokens fuel p2) as [[ds p3]| | |]; try discriminate.
    destruct (parse_selection_set tokens fuel p3) as [[ss p4]| | |]; try discriminate.
    unfold ret in H. injection H as <- _.
    cbn. split; [reflexivity|]. split; [reflexivity|]. split; [reflexivity|].
    intros _ token Ht Hlb.
    unfold parse_name_maybe, bind, get_current_position, peek in Hn.
    rewrite Ht, Hlb in Hn. unfold ret in Hn. congruence.
  - cbn [negb] in H. unfold next in H.
    destruct (parse_name_maybe tokens (S ptr)) as [[name p1]| | |]; try discriminate.
    destruct (parse_variable_definitions tokens fuel p1) as [[vds p2]| | |]; try discriminate.
    destruct (parse_directives tokens fuel p2) as [[ds p3]| | |]; try discriminate.
    destruct (parse_selection_set tokens fuel p3) as [[ss p4]| | |]; try discriminate.
    unfold ret in H. injection H as <- _.
    cbn. split; [reflexivity|]. split; [reflexivity|]. split; [reflexivity|].
    discriminate.
Qed.

Lemma Forall_snoc {A} (P : A -> Prop) l x : Forall P l -> P x -> Forall P (l ++ [x]).
Proof. intros H1 H2. apply Forall_app. split; [exact H1|]. constructor; [exact H2|constructor]. Qed.

Lemma parse_definitions_loop_ok tokens fuel :
  forall definitions ptr definitions' ptr',
    parse_definitions_loop tokens fuel definitions ptr = Ok (definitions', ptr') ->
    Forall (anonymous_spec tokens) definitions ->
    Forall (anonymous_spec tokens) definitions'.
Proof.
  induction fuel as [|fuel IH]; intros definitions ptr definitions' ptr' H HF; [discriminate|].
  cbn [parse_definitions_loop] in H.
  unfold bind, peek_safe, get_current_position in H.
  destruct (nth_error tokens ptr) as [token|] eqn:Ht.
  2: { cbn in H. injection H as <- _. exact HF. }
  destruct (LexicalTokenType.eqb (LexicalToken.token_type token) LexicalTokenType.EOF).
  { unfold ret in H. injection H as <- _. exact HF. }
  destruct (is_punctuator Punctuator.LeftBrace token) eqn:Hlb.
  { destruct (parse_operation_definition tokens fuel OperationType.Query true ptr)
      as [[d p]| | |] eqn:Hd; try discriminate.
    apply (IH _ _ _ _ H). apply Forall_snoc; [exact HF|].
    destruct (parse_operation_definition_ok _ _ _ _ _ _ _ Hd) as [Ha [Ho [Hs Hn]]].
    exists ptr, token. split; [exact Ht|]. split; [rewrite Hs; unfold start_of; rewrite Ht; reflexivity|].
    unfold is_punctuator in Hlb.
    destruct (LexicalToken.token_type token) as [pp| | | | |] eqn:Htt; try discriminate.
    destruct pp; try discriminate.
    split; [|rewrite Ha; discriminate].
    split; [intros _; split; [exact (Hn eq_refl token Ht Htt)|reflexivity]|intros _; exact Ha]. }
  destruct (match LexicalToken.token_type token with
            | LexicalTokenType.Name name => OperationType.parse name
            | _ => None
            end) as [operation_type|] eqn:Hop.
  { destruct (parse_operation_definition tokens fuel operation_type false ptr)
      as [[d p]| | |] eqn:Hd; try discriminate.
    apply (IH _ _ _ _ H). apply Forall_snoc; [exact HF|].
    destruct (parse_operation_definition_ok _ _ _ _ _ _ _ Hd) as [Ha [Ho [Hs _]]].
    exists ptr, token. split; [exact Ht|]. split; [rewrite Hs; unfold start_of; rewrite Ht; reflexivity|].
    destruct (LexicalToken.token_type token) as [p0| keyword | | | |]; try discriminate.
    split.
    - rewrite Ha. split; [discriminate|intros [_ Hc]; discriminate].
    - intros _. exists keyword, operation_type. split; [reflexivity|]. split; [exact Hop|exact Ho]. }
  repeat match type of H with
         | context [if ?b then _ else _] => destruct b
         | context [match ?m with Ok _ => _ | Err _ => _ | Panic _ => _ | OutOfFuel => _ end] =>
             destruct m as [[? ?]| | |]; try discriminate
         | context [match nth_error tokens ?p with _ => _ end] =>
             destruct (nth_error tokens p); try discriminate
         end;
  try discriminate;
  (apply (IH _ _ _ _ H); apply Forall_snoc; [exact HF|exact I]).
Qed.

(** C4: every operation definition of a successful parse starts at a token
    of the lexed input; it is anonymous exactly when it has no name and that
    token is the brace of the bare form, and otherwise that token is the
    query, mutation or subscription keyword of its operation.  [{ test }]
    parses to one anonymous query without a name. *)
Theorem parse_operation_anonymous_iff_bare_form :
  (forall fuel source doc,
     parse fuel source = Ok doc ->
     exists tokens,
       lex source = Ok tokens
       /\ Forall (anonymous_spec tokens) (Document.definitions doc))
  /\ (forall fuel, 5 <= fuel ->
        match parse fuel (str "{ test }") with
        | Ok doc =>
            match Document.definitions doc with
            | [Definition_.OperationDefinition od] =>
                OperationDefinition.anonymous od = true
                /\ OperationDefinition.operation od = OperationType.Query
                /\ OperationDefinition.name od = None
            | _ => False
            end
        | _ => False
        end).
Proof.
  split.
  - intros fuel source doc H. unfold parse in H.
    destruct (lex source) as [tokens| | |]; try discriminate.
    exists tokens. split; [reflexivity|].
    cbn [res_bind] in H.
    unfold parse_document, parse_definitions, bind, get_current_position in H.
    destruct (parse_definitions_loop tokens fuel [] 0) as [[ds p]| | |] eqn:Hl; try discriminate.
    cbn in H. injection H as <-. cbn.
    exact (parse_definitions_loop_ok _ _ _ _ _ _ Hl (Forall_nil _)).
  - intros fuel Hf. do 5 (destruct fuel as [|fuel]; [lia|]).
    vm_compute. split; [reflexivity|split; reflexivity].
Qed.

Lemma parse_operation_anonymous_iff_bare_form_witness :
  exists doc,
    parse 5 (str "{ test }") = Ok doc
    /\ exists tokens,
         lex (str "{ test }") = Ok tokens
         /\ Forall (anonymous_spec tokens) (Document.definitions doc).
Proof.
  eexists. split; [vm_compute; reflexivity|].
  apply (proj1 parse_operation_anonymous_iff_bare_form 5). vm_compute. reflexivity.
Defined.

(** * Lexer: consume_while, numbers and strings *)
Lemma consume_while_from_spec (condition : char -> bool) cs :
  forall character line acc,
    exists pre,
      fst (Lexer.consume_while_from condition cs character line acc) = acc ++ pre
      /\ cs = pre ++ Lexer.rest (snd (Lexer.consume_while_from condition cs character line acc))
      /\ forallb condition pre = true
      /\ (forall c r,
            Lexer.rest (snd (Lexer.consume_while_from condition cs character line acc)) = c :: r ->
            condition c = false)
      /\ ((forall c, condition c = true -> is_line_terminator c = false) ->
          Lexer.line (snd (Lexer.consume_while_from condition cs character line acc)) = line
          /\ Lexer.character (snd (Lexer.consume_while_from condition cs character line acc))
             = character + List.length pre).
Proof.
  induction cs as [|c cs IH]; intros character line acc.
  - exists []. cbn. rewrite app_nil_r. repeat split; try reflexivity; try discriminate. lia.
  - cbn [Lexer.consume_while_from].
    destruct (condition c) eqn:Hc.
    + destruct (is_line_terminator c) eqn:Ht.
      * destruct (IH 0 (S line) (acc ++ [c])) as [pre [H1 [H2 [H3 [H4 H5]]]]].
        exists (c :: pre). rewrite H1, <- app_assoc. cbn [app].
        split; [reflexivity|]. split; [rewrite <- H2; reflexivity|].
        split; [cbn; rewrite Hc, H3; reflexivity|]. split; [exact H4|].
        intros Hnl. rewrite (Hnl c Hc) in Ht. discriminate.
      * destruct (IH (S character) line (acc ++ [c])) as [pre [H1 [H2 [H3 [H4 H5]]]]].
        exists (c :: pre). rewrite H1, <- app_assoc. cbn [app].
        split; [reflexivity|]. split; [rewrite <- H2; reflexivity|].
        split; [cbn; rewrite Hc, H3; reflexivity|]. split; [exact H4|].
        intros Hnl. destruct (H5 Hnl) as [-> ->]. cbn [List.length]. split; [reflexivity|lia].
    + exists []. cbn. rewrite app_nil_r. split; [reflexivity|]. split; [reflexivity|].
      split; [reflexivity|]. split; [intros c' r [= <- _]; exact Hc|].
      intros _. split; [reflexivity|lia].
Qed.

Lemma ignore_while_from_consume condition cs :
  forall character line acc,
    Lexer.ignore_while_from condition cs character line
    = snd (Lexer.consume_while_from condition cs character line acc).
Proof.
  induction cs as [|c cs IH]; intros character line acc; [reflexivity|].
  cbn. destruct (condition c); [destruct (is_line_terminator c)|]; auto.
Qed.

(** X1: [consume_while] splits the remaining input into the longest prefix whose chars all satisfy the condition and the rest, whose first char (if any) fails it; [ignore_while] stops in the same state; and when the condition admits no line terminator the line is unchanged and the column advances by the length of the prefix. *)
Theorem consume_while_longest_prefix :
  forall condition lx value lx',
    Lexer.consume_while condition lx = (value, lx') ->
    Lexer.rest lx = value ++ Lexer.rest lx'
    /\ forallb condition value = true
    /\ (forall c r, Lexer.rest lx' = c :: r -> condition c = false)
    /\ Lexer.ignore_while condition lx = lx'
    /\ ((forall c, condition c = true -> is_line_terminator c = false) ->
        Lexer.line lx' = Lexer.line lx
        /\ Lexer.character lx' = Lexer.character lx + List.length value).
Proof.
  intros condition lx value lx' H. unfold Lexer.consume_while in H.
  destruct (consume_while_from_spec condition (Lexer.rest lx) (Lexer.character lx) (Lexer.line lx) [])
    as [pre [H1 [H2 [H3 [H4 H5]]]]].
  rewrite H in H1, H2, H4, H5. cbn [fst snd] in *. subst value.
  split; [exact H2|]. split; [exact H3|]. split; [exact H4|]. split.
  - unfold Lexer.ignore_while. rewrite (ignore_while_from_consume _ _ _ _ []), H. reflexivity.
  - exact H5.
Qed.

Lemma consume_while_longest_prefix_witness :
  Lexer.consume_while is_ascii_digit (Lexer.mk (str "12a") 3 1) = (str "12", Lexer.mk (str "a") 5 1)
  /\ Lexer.rest (Lexer.mk (str "12a") 3 1) = str "12" ++ Lexer.rest (Lexer.mk (str "a") 5 1).
Proof.
  split; [vm_compute; reflexivity|].
  apply (consume_while_longest_prefix is_ascii_digit (Lexer.mk (str "12a") 3 1)). vm_compute. reflexivity.
Defined.

Lemma digit_not_special d :
  is_ascii_digit d = true ->
  is_line_terminator d = false /\ N.eqb d (ch "-") = false /\ N.eqb d (ch ".") = false.
Proof.
  unfold is_ascii_digit, is_line_terminator, NEW_LINE, CARRIAGE_RETURN. cbn.
  intros H. apply andb_true_iff in H as [H1 H2].
  apply N.leb_le in H1. apply N.leb_le in H2.
  repeat split; try apply orb_false_iff; try split; apply N.eqb_neq; lia.
Qed.

Lemma consume_digits ds r :
  forall character line acc,
    forallb is_ascii_digit ds = true ->
    (forall d r', r = d :: r' -> is_ascii_digit d = false) ->
    Lexer.consume_while_from is_ascii_digit (ds ++ r) character line acc
    = (acc ++ ds, Lexer.mk r (character + List.length ds) line).
Proof.
  induction ds as [|d ds IH]; intros character line acc Hds Hr.
  - destruct r as [|d r'].
    + cbn. rewrite app_nil_r, Nat.add_0_r. reflexivity.
    + cbn. rewrite (Hr d r' eq_refl), app_nil_r, Nat.add_0_r. reflexivity.
  - cbn in Hds. apply andb_true_iff in Hds as [Hd Hds].
    cbn [app Lexer.consume_while_from]. rewrite Hd.
    destruct (digit_not_special d Hd) as [Ht _]. rewrite Ht.
    rewrite IH by assumption. rewrite <- app_assoc. cbn [List.length].
    f_equal. f_equal. lia.
Qed.

(** X2: for an optional minus sign, a non-empty run of digits and a following char that is neither a digit nor a dot, [tokenize_number] consumes exactly the sign and digits; the IntValue token it returns is placed at the column after the digits (not at the sign), spanning as many columns as there are digits, and a value out of the i32 range is the error "Invalid number" at that column. *)
Theorem tokenize_number_int_position :
  forall sign ds r character line,
    (sign = [] \/ sign = str "-") ->
    ds <> [] ->
    forallb is_ascii_digit ds = true ->
    (forall c r', r = c :: r' -> is_ascii_digit c = false /\ c <> ch ".") ->
    Lexer.tokenize_number (Lexer.mk (sign ++ ds ++ r) character line)
    = let at_ := character + List.length sign + List.length ds in
      match Lexer.parse_i32 sign ds with
      | Some value =>
          Ok (LexicalToken.new (LexicalTokenType.IntValue value)
                (Range.new (Position.new line at_) (Position.new line (at_ + List.length ds))),
              Lexer.mk r at_ line)
      | None => Err (error_at (str "Invalid number") line at_ line (S at_))
      end.
Proof.
  intros sign ds r character line Hsign Hne Hds Hr.
  assert (Hr' : forall d r', r = d :: r' -> is_ascii_digit d = false)
    by (intros d r' E; exact (proj1 (Hr d r' E))).
  destruct ds as [|d ds']; [congruence|].
  pose proof Hds as Hd. cbn in Hd. apply andb_true_iff in Hd as [Hd _].
  destruct (digit_not_special d Hd) as [_ [Hm _]].
  unfold Lexer.tokenize_number.
  assert (Hsplit :
    (match Lexer.peek (Lexer.mk (sign ++ (d :: ds') ++ r) character line) with
     | Some c =>
         if N.eqb c (ch "-")
         then (str "-", snd (Lexer.next (Lexer.mk (sign ++ (d :: ds') ++ r) character line)))
         else ([], Lexer.mk (sign ++ (d :: ds') ++ r) character line)
     | None => ([], Lexer.mk (sign ++ (d :: ds') ++ r) character line)
     end) = (sign, Lexer.mk ((d :: ds') ++ r) (character + List.length sign) line)).
  { destruct Hsign as [-> | ->].
    - cbn [app Lexer.peek Lexer.rest hd_error]. rewrite Hm. cbn. rewrite Nat.add_0_r. reflexivity.
    - cbn. rewrite Nat.add_1_r. reflexivity. }
  rewrite Hsplit. cbv zeta.
  unfold Lexer.consume_while. cbn [Lexer.rest Lexer.character Lexer.line].
  rewrite (consume_digits (d :: ds') r) by assumption. cbn [app].
  destruct r as [|c r'].
  - unfold Lexer.peek, Lexer.int_token. cbn [Lexer.rest hd_error Lexer.line Lexer.character].
    reflexivity.
  - destruct (Hr c r' eq_refl) as [_ Hdot].
    unfold Lexer.peek. cbn [Lexer.rest hd_error].
    replace (N.eqb c (ch ".")) with false by (symmetry; apply N.eqb_neq; exact Hdot).
    unfold Lexer.int_token. cbn [Lexer.line Lexer.character]. reflexivity.
Qed.

Lemma tokenize_number_int_position_witness :
  Lexer.tokenize_number (Lexer.mk (str "-" ++ str "42" ++ str " ") 3 0)
  = Ok (LexicalToken.new (LexicalTokenType.IntValue (-42)%Z)
          (Range.new (Position.new 0 6) (Position.new 0 8)), Lexer.mk (str " ") 6 0).
Proof.
  rewrite (tokenize_number_int_position (str "-") (str "42") (str " ") 3 0).
  - vm_compute. reflexivity.
  - right; reflexivity.
  - discriminate.
  - reflexivity.
  - intros c r' E. injection E as <- _. split; [reflexivity|discriminate].
Defined.

Lemma string_loop_prefix_at n :
  forall pre d cs character line acc,
    List.length pre <= n ->
    decode_escapes pre = Some d ->
    Lexer.string_loop (pre ++ cs) character line acc
    = Lexer.string_loop cs (character + List.length pre) line (acc ++ d).
Proof.
  induction n as [|n IH]; intros pre d cs character line acc Hl Hd.
  - destruct pre; [|simpl in Hl; lia].
    injection Hd as <-. rewrite app_nil_r, Nat.add_0_r. reflexivity.
  - destruct pre as [|c pre'].
    + injection Hd as <-. rewrite app_nil_r, Nat.add_0_r. reflexivity.
    + cbn [decode_escapes] in Hd. simpl in Hl.
      destruct (N.eqb c BACKSLASH) eqn:Hb.
      * destruct pre' as [|e pre'']; [discriminate|].
        destruct (escape_meaning e) as [d0|] eqn:He; [|discriminate].
        destruct (decode_escapes pre'') as [ds|] eqn:Hds; [|discriminate].
        injection Hd as <-. simpl in Hl.
        cbn [app Lexer.string_loop].
        replace (N.eqb c DOUBLE_QUOTE) with false
          by (apply N.eqb_eq in Hb; subst c; reflexivity).
        rewrite Hb, unescape_escape_meaning, He.
        rewrite (IH pre'' ds cs (S (S character)) line (acc ++ [d0])) by (lia || exact Hds).
        rewrite <- app_assoc. cbn [List.length app]. f_equal. lia.
      * destruct (N.eqb c DOUBLE_QUOTE || is_line_terminator c) eqn:Hqt; [discriminate|].
        apply orb_false_iff in Hqt as [Hq Ht].
        destruct (decode_escapes pre') as [ds|] eqn:Hds; [|discriminate].
        injection Hd as <-.
        cbn [app Lexer.string_loop]. rewrite Hq, Hb, Ht.
        rewrite (IH pre' ds cs (S character) line (acc ++ [c])) by (lia || exact Hds).
        rewrite <- app_assoc. cbn [List.length app]. f_equal. lia.
Qed.

(** X3: a string literal whose body decodes is turned by [tokenize_string] into a StringValue token with the decoded text, spanning from the opening quote to just past the closing one on the same line; if the closing quote is missing, "Unterminated string." is reported at the line break or the end of the input. *)
Theorem tokenize_string_literal :
  forall raw decoded r character line,
    decode_escapes raw = Some decoded ->
    Lexer.tokenize_string (Lexer.mk (DOUBLE_QUOTE :: raw ++ DOUBLE_QUOTE :: r) character line)
    = Ok (LexicalToken.new (LexicalTokenType.StringValue decoded)
            (Range.new (Position.new line character)
               (Position.new line (character + List.length raw + 2))),
          Lexer.mk r (character + List.length raw + 2) line)
    /\ ((r = [] \/ exists t r', r = t :: r' /\ is_line_terminator t = true) ->
        Lexer.tokenize_string (Lexer.mk (DOUBLE_QUOTE :: raw ++ r) character line)
        = Err (error_at (str "Unterminated string.")
                 line (character + List.length raw + 1)
                 line (S (character + List.length raw + 1)))).
Proof.
  intros raw decoded r character line Hd. split.
  - unfold Lexer.tokenize_string, Lexer.expect_next, Lexer.next, Lexer.peek.
    cbn [Lexer.rest hd_error tl Lexer.line Lexer.character]. rewrite N.eqb_refl. cbn [res_bind].
    cbn [Lexer.rest Lexer.line Lexer.character].
    rewrite (string_loop_prefix_at _ raw decoded _ _ _ _ (le_n _) Hd).
    cbn [Lexer.string_loop]. rewrite N.eqb_refl. cbn [res_bind app Lexer.line Lexer.character].
    repeat f_equal; lia.
  - intros Hr.
    unfold Lexer.tokenize_string, Lexer.expect_next, Lexer.next, Lexer.peek.
    cbn [Lexer.rest hd_error tl Lexer.line Lexer.character]. rewrite N.eqb_refl. cbn [res_bind].
    cbn [Lexer.rest Lexer.line Lexer.character].
    rewrite (string_loop_prefix_at _ raw decoded _ _ _ _ (le_n _) Hd).
    destruct Hr as [-> | [t [r' [-> Ht]]]].
    + cbn. repeat f_equal; lia.
    + cbn [Lexer.string_loop].
      assert (Hq : N.eqb t DOUBLE_QUOTE = false).
      { unfold is_line_terminator in Ht. apply N.eqb_neq. intros ->. discriminate. }
      assert (Hb : N.eqb t BACKSLASH = false).
      { unfold is_line_terminator in Ht. apply N.eqb_neq. intros ->. discriminate. }
      rewrite Hq, Hb, Ht. cbn. repeat f_equal; lia.
Qed.

Lemma tokenize_string_literal_witness :
  Lexer.tokenize_string (Lexer.mk (DOUBLE_QUOTE :: str "ab" ++ DOUBLE_QUOTE :: str ")") 4 2)
  = Ok (LexicalToken.new (LexicalTokenType.StringValue (str "ab"))
          (Range.new (Position.new 2 4) (Position.new 2 8)), Lexer.mk (str ")") 8 2).
Proof.
  exact (proj1 (tokenize_string_literal (str "ab") (str "ab") (str ")") 4 2 eq_refl)).
Defined.

(** * Lexer: outcomes and token shapes *)
Lemma consume_while_split condition lx value lx' :
  Lexer.consume_while condition lx = (value, lx') ->
  Lexer.rest lx = value ++ Lexer.rest lx'
  /\ forallb condition value = true
  /\ (forall c r, Lexer.rest lx' = c :: r -> condition c = false)
  /\ ((forall c, condition c = true -> is_line_terminator c = false) ->
      Lexer.line lx' = Lexer.line lx
      /\ Lexer.character lx' = Lexer.character lx + List.length value).
Proof.
  intros H. unfold Lexer.consume_while in H.
  destruct (consume_while_from_spec condition (Lexer.rest lx) (Lexer.character lx) (Lexer.line lx) [])
    as [pre [H1 [H2 [H3 [H4 H5]]]]].
  rewrite H in H1, H2, H4, H5. cbn [fst snd] in *. subst value. auto.
Qed.

Lemma string_loop_ok_or_err n :
  forall cs character line acc,
    List.length cs <= n -> ok_or_err (Lexer.string_loop cs character line acc).
Proof.
  induction n as [|n IH]; intros cs character line acc Hl;
    (destruct cs as [|c cs]; [exact I|]); [simpl in Hl; lia|].
  cbn [Lexer.string_loop]. simpl in Hl.
  destruct (N.eqb c DOUBLE_QUOTE); [exact I|].
  destruct (N.eqb c BACKSLASH).
  - destruct cs as [|e cs']; [exact I|].
    destruct (Lexer.unescape e); [|exact I].
    apply IH. simpl in Hl. lia.
  - destruct (is_line_terminator c); [exact I|]. apply IH. lia.
Qed.

(** A successful [string_loop] stays on its line and moves right. *)
Lemma string_loop_position n :
  forall cs character line acc v lx',
    List.length cs <= n ->
    Lexer.string_loop cs character line acc = Ok (v, lx') ->
    Lexer.line lx' = line /\ character < Lexer.character lx'
    /\ List.length (Lexer.rest lx') < List.length cs.
Proof.
  induction n as [|n IH]; intros cs character line acc v lx' Hl H;
    (destruct cs as [|c cs]; [discriminate|]); [simpl in Hl; lia|].
  cbn [Lexer.string_loop] in H. simpl in Hl.
  destruct (N.eqb c DOUBLE_QUOTE).
  { injection H as _ <-. cbn. repeat split; lia. }
  destruct (N.eqb c BACKSLASH).
  - destruct cs as [|e cs']; [discriminate|].
    destruct (Lexer.unescape e); [|discriminate].
    simpl in Hl. destruct (IH cs' _ _ _ _ _ ltac:(lia) H) as [H1 [H2 H3]].
    cbn [List.length]. repeat split; lia.
  - destruct (is_line_terminator c); [discriminate|].
    destruct (IH cs _ _ _ _ _ ltac:(lia) H) as [H1 [H2 H3]].
    cbn [List.length]. repeat split; lia.
Qed.

Lemma tokenize_string_ok_or_err lx : ok_or_err (Lexer.tokenize_string lx).
Proof.
  unfold Lexer.tokenize_string.
  destruct (Lexer.expect_next DOUBLE_QUOTE lx) as [[q lx1]| | |] eqn:Hq; cbn [res_bind]; try exact I.
  - pose proof (string_loop_ok_or_err _ (Lexer.rest lx1) (Lexer.character lx1) (Lexer.line lx1) [] (le_n _)) as Hs.
    destruct (Lexer.string_loop (Lexer.rest lx1) (Lexer.character lx1) (Lexer.line lx1) [])
      as [[v lx2]| | |]; cbn; trivial.
  - unfold Lexer.expect_next in Hq. destruct (Lexer.next lx) as [[c|] lx']; [destruct (N.eqb c DOUBLE_QUOTE)|]; discriminate.
  - unfold Lexer.expect_next in Hq. destruct (Lexer.next lx) as [[c|] lx']; [destruct (N.eqb c DOUBLE_QUOTE)|]; discriminate.
Qed.

(** A successful [tokenize_string]: a token on one line, moving right, and
    less input left. *)
Lemma tokenize_string_shape lx token lx' :
  Lexer.tokenize_string lx = Ok (token, lx') ->
  Position.line (Range.start (LexicalToken.position token))
    = Position.line (Range.end_ (LexicalToken.position token))
  /\ Position.character (Range.start (LexicalToken.position token))
     < Position.character (Range.end_ (LexicalToken.position token))
  /\ List.length (Lexer.rest lx') < List.length (Lexer.rest lx)
  /\ (exists v, LexicalToken.token_type token = LexicalTokenType.StringValue v).
Proof.
  unfold Lexer.tokenize_string. intros H.
  apply res_bind_ok in H as [[q lx1] [Hq H]].
  apply res_bind_ok in H as [[v lx2] [Hs H]].
  injection H as <- <-.
  unfold Lexer.expect_next, Lexer.next, Lexer.peek in Hq.
  destruct (Lexer.rest lx) as [|c cs] eqn:Hr; [discriminate|].
  cbn [hd_error tl] in Hq.
  destruct (N.eqb c DOUBLE_QUOTE); [|discriminate].
  injection Hq as _ <-.
  destruct (string_loop_position _ _ _ _ _ _ _ (le_n _) Hs) as [H1 [H2 H3]].
  cbn in *. repeat split; try lia. eexists; reflexivity.
Qed.

Lemma tokenize_number_ok_or_err lx : ok_or_err (Lexer.tokenize_number lx).
Proof.
  unfold Lexer.tokenize_number, Lexer.int_token.
  repeat match goal with
         | |- context [match ?x with _ => _ end] => destruct x
         end; exact I.
Qed.

Lemma rest_next_le lx : List.length (Lexer.rest (snd (Lexer.next lx))) <= List.length (Lexer.rest lx).
Proof. destruct lx as [[|c r] ch l]; cbn; lia. Qed.

Lemma digit_not_line_terminator c : is_ascii_digit c = true -> is_line_terminator c = false.
Proof. intros H. exact (proj1 (digit_not_special c H)). Qed.

Ltac number_tail H Hle :=
  match type of H with
  | context [Lexer.consume_while is_ascii_digit ?L1] =>
      let nv := fresh "nv" in let lx2 := fresh "lx2" in let E2 := fresh "E2" in
      destruct (Lexer.consume_while is_ascii_digit L1) as [nv lx2] eqn:E2;
      destruct (consume_while_split _ _ _ _ E2) as [R2 [_ [_ P2]]];
      specialize (P2 digit_not_line_terminator);
      destruct nv as [|n0 ns]; [discriminate|];
      destruct (Lexer.peek lx2) as [c2|];
      [destruct (N.eqb c2 (ch "."))|];
      [ let dv := fresh "dv" in let lx4 := fresh "lx4" in let E4 := fresh "E4" in
        destruct (Lexer.consume_while is_ascii_digit (snd (Lexer.next lx2))) as [dv lx4] eqn:E4;
        destruct (consume_while_split _ _ _ _ E4) as [R4 [_ [_ P4]]];
        specialize (P4 digit_not_line_terminator);
        pose proof (rest_next_le lx2) as Hn2;
        destruct dv as [|d0 ds]; [discriminate|];
        injection H as <- <-; cbn;
        pose proof (f_equal (@List.length char) R2) as L2;
        pose proof (f_equal (@List.length char) R4) as L4;
        rewrite length_app in L2, L4; cbn [List.length] in L2, L4;
        repeat split; [lia|lia|right; eexists; reflexivity]
      | unfold Lexer.int_token in H; destruct (Lexer.parse_i32 _ _); [|discriminate];
        injection H as <- <-; cbn;
        pose proof (f_equal (@List.length char) R2) as L2;
        rewrite length_app in L2; cbn [List.length] in L2;
        repeat split; [lia|lia|left; eexists; reflexivity]
      | unfold Lexer.int_token in H; destruct (Lexer.parse_i32 _ _); [|discriminate];
        injection H as <- <-; cbn;
        pose proof (f_equal (@List.length char) R2) as L2;
        rewrite length_app in L2; cbn [List.length] in L2;
        repeat split; [lia|lia|left; eexists; reflexivity] ]
  end.

Lemma tokenize_number_shape lx token lx' :
  Lexer.tokenize_number lx = Ok (token, lx') ->
  Position.line (Range.start (LexicalToken.position token))
    = Position.line (Range.end_ (LexicalToken.position token))
  /\ Position.character (Range.start (LexicalToken.position token))
     < Position.character (Range.end_ (LexicalToken.position token))
  /\ List.length (Lexer.rest lx') < List.length (Lexer.rest lx)
  /\ ((exists v, LexicalToken.token_type token = LexicalTokenType.IntValue v)
      \/ (exists f, LexicalToken.token_type token = LexicalTokenType.FloatValue f)).
Proof.
  unfold Lexer.tokenize_number. intros H.
  destruct (Lexer.peek lx) as [c|] eqn:Hp; [destruct (N.eqb c (ch "-"))|]; cbn iota beta zeta in H.
  - pose proof (rest_next_le lx) as Hle. number_tail H Hle.
  - pose proof (le_n (List.length (Lexer.rest lx))) as Hle. number_tail H Hle.
  - pose proof (le_n (List.length (Lexer.rest lx))) as Hle. number_tail H Hle.
Qed.

Lemma punctuator_char_total c :
  Lexer.is_punctuator_char c = true -> exists p, char_to_punctuator c = Some p.
Proof.
  unfold Lexer.is_punctuator_char. intros H.
  apply existsb_exists in H as [x [Hin Hx]]. apply N.eqb_eq in Hx. subst x.
  cbn [str] in Hin.
  repeat (destruct Hin as [<-|Hin]; [eexists; reflexivity|]).
  destruct Hin.
Qed.

Lemma name_continue_not_line_terminator c :
  Lexer.is_name_continue c = true -> is_line_terminator c = false.
Proof.
  unfold Lexer.is_name_continue, is_ascii_alphanumeric, is_ascii_digit, is_ascii_alphabetic,
    is_line_terminator, NEW_LINE, CARRIAGE_RETURN. cbn.
  intros H. apply orb_false_iff. split; apply N.eqb_neq; intros ->; discriminate.
Qed.

Lemma name_start_continue c : Lexer.is_name_start c = true -> Lexer.is_name_continue c = true.
Proof.
  unfold Lexer.is_name_start, Lexer.is_name_continue, is_ascii_alphanumeric.
  destruct (is_ascii_alphabetic c), (is_ascii_digit c), (N.eqb c (ch "_")); auto.
Qed.

(** The name branch of [Lexer::lex]: [consume_while(is_name_continue)] from a
    name start reads a valid, non-empty name on the current line. *)
Lemma name_branch lx c r value lx1 :
  Lexer.rest lx = c :: r ->
  Lexer.is_name_start c = true ->
  Lexer.consume_while Lexer.is_name_continue lx = (value, lx1) ->
  is_valid_name value = true
  /\ Lexer.line lx1 = Lexer.line lx
  /\ Lexer.character lx < Lexer.character lx1
  /\ List.length (Lexer.rest lx1) < List.length (Lexer.rest lx).
Proof.
  intros Hr Hs H.
  destruct (consume_while_split _ _ _ _ H) as [R [F [Stop P]]].
  specialize (P name_continue_not_line_terminator) as [P1 P2].
  destruct value as [|c' value'].
  { cbn in R. rewrite <- R in Stop. specialize (Stop c r Hr).
    rewrite (name_start_continue c Hs) in Stop. discriminate. }
  rewrite Hr in R. injection R as <- R.
  cbn [forallb] in F. apply andb_true_iff in F as [_ F].
  split.
  - cbn [is_valid_name]. unfold Lexer.is_name_start in Hs. rewrite Hs. cbn [andb].
    pose proof (proj1 (forallb_forall _ _) F) as F'.
    apply forallb_forall. intros x Hx. specialize (F' x Hx).
    unfold Lexer.is_name_continue, is_ascii_alphanumeric in F'.
    destruct (is_ascii_alphabetic x), (is_ascii_digit x), (N.eqb x (ch "_")); auto.
  - split; [exact P1|]. split; [rewrite P2; cbn [List.length]; lia|].
    rewrite Hr, R. cbn [List.length]. rewrite length_app. lia.
Qed.

Lemma comment_branch lx r :
  Lexer.rest lx = ch "#" :: r ->
  List.length (Lexer.rest (Lexer.ignore_while (fun c => negb (is_line_terminator c)) lx))
  < List.length (Lexer.rest lx).
Proof.
  intros Hr. unfold Lexer.ignore_while. rewrite Hr.
  cbn [Lexer.ignore_while_from].
  replace (is_line_terminator (ch "#")) with false by reflexivity. cbn [negb].
  set (f := fun c => negb (is_line_terminator c)).
  rewrite (ignore_while_from_consume f r (S (Lexer.character lx)) (Lexer.line lx) []).
  destruct (consume_while_from_spec f r (S (Lexer.character lx)) (Lexer.line lx) [])
    as [pre [_ [H2 _]]].
  pose proof (f_equal (@List.length char) H2) as L. rewrite length_app in L.
  cbn [List.length]. lia.
Qed.

Lemma length_tl_le {A} (l : list A) : List.length (tl l) <= List.length l.
Proof. destruct l; cbn; lia. Qed.

Lemma expect_peek_ok_or_err e lx : ok_or_err (Lexer.expect_peek e lx).
Proof.
  unfold Lexer.expect_peek. destruct (Lexer.peek lx); [destruct (N.eqb _ e)|]; exact I.
Qed.

Lemma lex_while_ok_or_err fuel :
  forall tokens lx, List.length (Lexer.rest lx) < fuel -> ok_or_err (Lexer.lex_while fuel tokens lx).
Proof.
  induction fuel as [|fuel IH]; intros tokens [rest character line] Hl; [cbn in Hl; lia|].
  destruct rest as [|c r]; [exact I|].
  cbn [List.length Lexer.rest] in Hl.
  cbn [Lexer.lex_while Lexer.peek Lexer.rest hd_error].
  destruct (Lexer.is_ignored c). { apply IH. cbn. lia. }
  destruct (is_line_terminator c). { apply IH. cbn. lia. }
  destruct (N.eqb c (ch "#")) eqn:Hh.
  { apply N.eqb_eq in Hh. subst c. apply IH.
    pose proof (comment_branch (Lexer.mk (ch "#" :: r) character line) r eq_refl) as L.
    cbn [Lexer.rest List.length] in L. lia. }
  destruct (Lexer.is_punctuator_char c) eqn:Hpc.
  { destruct (punctuator_char_total c Hpc) as [p ->]. apply IH. cbn. lia. }
  destruct (N.eqb c (ch ".")).
  { match goal with |- context [Lexer.expect_peek ?e ?l] =>
      pose proof (expect_peek_ok_or_err e l) as Ht; destruct (Lexer.expect_peek e l) end;
    cbn [res_bind]; try exact I; try (cbn in Ht; contradiction).
    match goal with |- context [Lexer.expect_peek ?e ?l] =>
      pose proof (expect_peek_ok_or_err e l) as Ht'; destruct (Lexer.expect_peek e l) end;
    cbn [res_bind]; try exact I; try (cbn in Ht'; contradiction).
    apply IH. cbn. pose proof (length_tl_le r). pose proof (length_tl_le (tl r)).
    pose proof (length_tl_le (tl (tl r))). lia. }
  destruct (N.eqb c DOUBLE_QUOTE).
  { pose proof (tokenize_string_ok_or_err (Lexer.mk (c :: r) character line)) as Ht.
    destruct (Lexer.tokenize_string _) as [[token lx1]| | |] eqn:E; cbn [res_bind]; try exact I;
      try (cbn in Ht; contradiction).
    destruct (tokenize_string_shape _ _ _ E) as [_ [_ [L _]]].
    apply IH. cbn in L. lia. }
  destruct (N.eqb c (ch "-")).
  { pose proof (tokenize_number_ok_or_err (Lexer.mk (c :: r) character line)) as Ht.
    destruct (Lexer.tokenize_number _) as [[token lx1]| | |] eqn:E; cbn [res_bind]; try exact I;
      try (cbn in Ht; contradiction).
    destruct (tokenize_number_shape _ _ _ E) as [_ [_ [L _]]].
    apply IH. cbn in L. lia. }
  destruct (is_ascii_digit c).
  { pose proof (tokenize_number_ok_or_err (Lexer.mk (c :: r) character line)) as Ht.
    destruct (Lexer.tokenize_number _) as [[token lx1]| | |] eqn:E; cbn [res_bind]; try exact I;
      try (cbn in Ht; contradiction).
    destruct (tokenize_number_shape _ _ _ E) as [_ [_ [L _]]].
    apply IH. cbn in L. lia. }
  destruct (Lexer.is_name_start c) eqn:Hs; [|exact I].
  destruct (Lexer.consume_while Lexer.is_name_continue _) as [value lx1] eqn:E.
  destruct (name_branch (Lexer.mk (c :: r) character line) c r _ _ eq_refl Hs E) as [_ [_ [_ L]]].
  apply IH. cbn in L. lia.
Qed.

(** * Lexer: all tokens *)
Lemma lex_while_token_ok fuel :
  forall tokens lx tokens' lx', Lexer.lex_while fuel tokens lx = Ok (tokens', lx') ->
  Forall token_ok tokens -> Forall token_ok tokens'.
Proof.
  induction fuel as [|fuel IH]; intros tokens [rest character line] tokens' lx' H Hf;
    [discriminate|].
  destruct rest as [|c r]; [cbn in H; injection H as <- _; exact Hf|].
  cbn [Lexer.lex_while Lexer.peek Lexer.rest hd_error] in H.
  destruct (Lexer.is_ignored c). { exact (IH _ _ _ _ H Hf). }
  destruct (is_line_terminator c). { exact (IH _ _ _ _ H Hf). }
  destruct (N.eqb c (ch "#")). { exact (IH _ _ _ _ H Hf). }
  destruct (Lexer.is_punctuator_char c).
  { destruct (char_to_punctuator c) as [p|]; [|discriminate].
    refine (IH _ _ _ _ H _). apply Forall_snoc; [exact Hf|].
    unfold token_ok; cbn. repeat split; try lia; intros ? ?; discriminate. }
  destruct (N.eqb c (ch ".")).
  { apply res_bind_ok in H as [_ [_ H]]. apply res_bind_ok in H as [_ [_ H]].
    refine (IH _ _ _ _ H _). apply Forall_snoc; [exact Hf|].
    unfold token_ok; cbn. repeat split; try lia; intros ? ?; discriminate. }
  destruct (N.eqb c DOUBLE_QUOTE).
  { apply res_bind_ok in H as [[token lx1] [E H]].
    refine (IH _ _ _ _ H _). apply Forall_snoc; [exact Hf|].
    destruct (tokenize_string_shape _ _ _ E) as [L1 [L2 [_ [v Hv]]]].
    repeat split; try assumption. intros n Hn. congruence. }
  destruct (N.eqb c (ch "-")).
  { apply res_bind_ok in H as [[token lx1] [E H]].
    refine (IH _ _ _ _ H _). apply Forall_snoc; [exact Hf|].
    destruct (tokenize_number_shape _ _ _ E) as [L1 [L2 [_ [[v Hv]|[v Hv]]]]];
    repeat split; try assumption; intros n Hn; congruence. }
  destruct (is_ascii_digit c).
  { apply res_bind_ok in H as [[token lx1] [E H]].
    refine (IH _ _ _ _ H _). apply Forall_snoc; [exact Hf|].
    destruct (tokenize_number_shape _ _ _ E) as [L1 [L2 [_ [[v Hv]|[v Hv]]]]];
    repeat split; try assumption; intros n Hn; congruence. }
  destruct (Lexer.is_name_start c) eqn:Hs; [|discriminate].
  destruct (Lexer.consume_while Lexer.is_name_continue _) as [value lx1] eqn:E.
  destruct (name_branch (Lexer.mk (c :: r) character line) c r _ _ eq_refl Hs E)
    as [V [L1 [L2 _]]].
  refine (IH _ _ _ _ H _). apply Forall_snoc; [exact Hf|].
  unfold token_ok; cbn in *. repeat split; try lia. intros n Hn. injection Hn as <-. exact V.
Qed.

(** X4: [lex] always finishes with a token list or a diagnostic: it never panics (the punctuator conversion is total on the punctuator chars) and never needs more rounds than there are input chars. *)
Theorem lex_ok_or_err source :
  match lex source with Ok _ | Err _ => True | _ => False end.
Proof.
  unfold lex, Lexer.lex.
  pose proof (lex_while_ok_or_err (S (List.length (Lexer.rest (Lexer.new source)))) []
                (Lexer.new source) (le_n _)) as H.
  destruct (Lexer.lex_while _ _ _) as [[tokens lx']| | |]; cbn; trivial.
Qed.

(** X5: every token of a successful [lex] other than the final EOF lies on a single line and has a start column strictly smaller than its end column, and every Name token holds a valid GraphQL name. *)
Theorem lex_tokens_on_one_line source tokens :
  lex source = Ok tokens ->
  forall token, In token tokens -> is_eof token = false -> token_ok token.
Proof.
  unfold lex, Lexer.lex. intros H.
  apply res_bind_ok in H as [[body lx'] [E H]]. injection H as <-.
  pose proof (lex_while_token_ok _ _ _ _ _ E (Forall_nil _)) as F.
  intros token Hin He. apply in_app_or in Hin as [Hin|[<-|[]]].
  - exact (proj1 (Forall_forall _ _) F token Hin).
  - discriminate.
Qed.

(** * Lexer: floats and line breaks *)
Lemma number_sign_split sign d ds' r character line :
  (sign = [] \/ sign = str "-") -> is_ascii_digit d = true ->
  (match Lexer.peek (Lexer.mk (sign ++ (d :: ds') ++ r) character line) with
   | Some c =>
       if N.eqb c (ch "-")
       then (str "-", snd (Lexer.next (Lexer.mk (sign ++ (d :: ds') ++ r) character line)))
       else ([], Lexer.mk (sign ++ (d :: ds') ++ r) character line)
   | None => ([], Lexer.mk (sign ++ (d :: ds') ++ r) character line)
   end) = (sign, Lexer.mk ((d :: ds') ++ r) (character + List.length sign) line).
Proof.
  intros Hsign Hd. destruct (digit_not_special d Hd) as [_ [Hm _]].
  destruct Hsign as [-> | ->].
  - cbn [app Lexer.peek Lexer.rest hd_error]. rewrite Hm. cbn. rewrite Nat.add_0_r. reflexivity.
  - cbn. rewrite Nat.add_1_r. reflexivity.
Qed.

(** X6: for a sign, a non-empty digit run, a dot and a digit run followed by a non-digit, [tokenize_number] returns a FloatValue token placed after the decimal digits, or, when there are no digits after the dot, the error "Invalid number, expected digit" at the column after the dot. *)
Theorem tokenize_number_float_position :
  forall sign ds es r character line,
    (sign = [] \/ sign = str "-") ->
    ds <> [] ->
    forallb is_ascii_digit ds = true ->
    forallb is_ascii_digit es = true ->
    (forall c r', r = c :: r' -> is_ascii_digit c = false) ->
    Lexer.tokenize_number (Lexer.mk (sign ++ ds ++ ch "." :: es ++ r) character line)
    = let at_ := character + List.length sign + List.length ds + 1 + List.length es in
      match es with
      | [] => Err (error_at (str "Invalid number, expected digit") line at_ line (S at_))
      | _ :: _ =>
          Ok (LexicalToken.new
                (LexicalTokenType.FloatValue
                   {| float_sign := sign; float_int := ds; float_decimal := es |})
                (Range.new (Position.new line at_)
                   (Position.new line (at_ + List.length ds + List.length es))),
              Lexer.mk r at_ line)
      end.
Proof.
  intros sign ds es r character line Hsign Hne Hds Hes Hr.
  destruct ds as [|d ds']; [congruence|].
  pose proof Hds as Hd. cbn in Hd. apply andb_true_iff in Hd as [Hd _].
  unfold Lexer.tokenize_number.
  rewrite (number_sign_split sign d ds' (ch "." :: es ++ r) character line Hsign Hd).
  unfold Lexer.consume_while. cbn [Lexer.rest Lexer.character Lexer.line].
  rewrite (consume_digits (d :: ds') (ch "." :: es ++ r)) by
    (try assumption; intros x r' E; injection E as <- _; reflexivity).
  cbn [app Lexer.peek Lexer.rest hd_error].
  replace (N.eqb (ch ".") (ch ".")) with true by reflexivity.
  cbn [snd Lexer.next Lexer.rest Lexer.character Lexer.line tl].
  rewrite (consume_digits es r) by assumption. cbn [app].
  replace (S (character + List.length sign + List.length (d :: ds')) + List.length es)
    with (character + List.length sign + List.length (d :: ds') + 1 + List.length es) by lia.
  destruct es as [|e es']; reflexivity.
Qed.

(** X7: the lexer counts each of CR and LF as a line break and resets the column: a CR LF pair advances the line by two, a lone LF by one. *)
Theorem lex_crlf_two_lines s character line :
  Lexer.lex (Lexer.mk (CARRIAGE_RETURN :: NEW_LINE :: s) character line)
    = Lexer.lex (Lexer.mk s 0 (S (S line)))
  /\ Lexer.lex (Lexer.mk (NEW_LINE :: s) character line) = Lexer.lex (Lexer.mk s 0 (S line)).
Proof. split; reflexivity. Qed.

(** * Parser: list values *)
Lemma parse_list_value_loop_enum_diverges :
  forall tokens ptr token name,
    nth_error tokens ptr = Some token ->
    LexicalToken.token_type token = LexicalTokenType.Name name ->
    list_char_eqb name (str "true") = false ->
    list_char_eqb name (str "false") = false ->
    list_char_eqb name (str "null") = false ->
    forall fuel start_position values,
      parse_list_value_loop tokens fuel start_position values ptr = OutOfFuel.
Proof.
  intros tokens ptr token name Hn Ht H1 H2 H3 fuel.
  induction fuel as [|fuel IH]; intros start_position values; [reflexivity|].
  cbn [parse_list_value_loop]. unfold bind, peek. rewrite Hn.
  unfold is_punctuator. rewrite Ht. cbn [LexicalTokenType.eqb].
  destruct fuel as [|f]; [reflexivity|].
  cbn [parse_value]. unfold bind, peek. rewrite Hn, Ht, H1, H2, H3.
  unfold ret. apply IH.
Qed.

(** * Parser: token progress of the value parsers *)
Section Steps.
Variable toks : list LexicalToken.t.

Lemma bind_ok {A B} (m : PM A) (k : A -> PM B) p x :
  bind m k p = Ok x -> exists a p1, m p = Ok (a, p1) /\ k a p1 = Ok x.
Proof. unfold bind. destruct (m p) as [[a p1]| | |]; try discriminate. eauto. Qed.

Lemma ret_ok {A} (a : A) p x : ret a p = Ok x -> x = (a, p).
Proof. unfold ret. congruence. Qed.

Lemma peek_ok p t p' : peek toks p = Ok (t, p') -> p' = p /\ nth_error toks p = Some t.
Proof. unfold peek. destruct (nth_error toks p); intros H; inversion H; auto. Qed.

Lemma peek_safe_ok p t p' : peek_safe toks p = Ok (t, p') -> p' = p.
Proof. unfold peek_safe. destruct (nth_error toks p); congruence. Qed.

Lemma get_current_position_ok p r p' : get_current_position toks p = Ok (r, p') -> p' = p.
Proof. unfold get_current_position. congruence. Qed.

Lemma next_ok p u p' : next p = Ok (u, p') -> p' = S p.
Proof. unfold next. congruence. Qed.

Lemma fail_ok {A} d p (x : A * nat) : fail d p = Ok x -> False.
Proof. unfold fail. discriminate. Qed.

Lemma expect_next_ok ty p b p' : expect_next toks ty p = Ok (b, p') -> p' = S p.
Proof.
  unfold expect_next. intros H. apply bind_ok in H as [t [p1 [E H]]].
  apply peek_ok in E as [-> _].
  destruct (LexicalTokenType.eqb _ _).
  - apply bind_ok in H as [u [p2 [E H]]]. apply next_ok in E. apply ret_ok in H. congruence.
  - apply bind_ok in H as [u [p2 [E H]]]. apply fail_ok in H. contradiction.
Qed.

Lemma parse_name_maybe_ok p n p' :
  parse_name_maybe toks p = Ok (n, p') ->
  match n with Some _ => p' = S p | None => p' = p end.
Proof.
  unfold parse_name_maybe. intros H.
  apply bind_ok in H as [r [p1 [E H]]]. apply get_current_position_ok in E as ->.
  apply bind_ok in H as [t [p2 [E H]]]. apply peek_ok in E as [-> _].
  destruct (LexicalToken.token_type t); try (apply ret_ok in H; injection H as -> ->; reflexivity).
  match goal with H : context [is_valid_name ?x] |- _ => destruct (is_valid_name x) end.
  - apply bind_ok in H as [u [p3 [E H]]]. apply next_ok in E. apply ret_ok in H. injection H as -> ->. congruence.
  - apply fail_ok in H. contradiction.
Qed.

Lemma parse_name_ok p n p' : parse_name toks p = Ok (n, p') -> p' = S p.
Proof.
  unfold parse_name. intros H.
  apply bind_ok in H as [m [p1 [E H]]]. apply parse_name_maybe_ok in E.
  destruct m.
  - apply ret_ok in H. congruence.
  - apply bind_ok in H as [r [p2 [E2 H]]]. apply fail_ok in H. contradiction.
Qed.
End Steps.

Ltac pm_step H :=
  match type of H with
  | bind _ _ _ = Ok _ =>
      let a := fresh "a" in let p := fresh "p" in let E := fresh "E" in
      apply bind_ok in H; destruct H as [a [p [E H]]]; try pm_step E
  | ret _ _ = Ok _ => apply ret_ok in H; try (injection H as -> ->)
  | fail _ _ = Ok _ => apply fail_ok in H; contradiction
  | peek _ _ = Ok _ => apply peek_ok in H; destruct H as [-> ?]
  | peek_safe _ _ = Ok _ => apply peek_safe_ok in H; subst
  | get_current_position _ _ = Ok _ => apply get_current_position_ok in H; subst
  | next _ = Ok _ => apply next_ok in H; subst
  | expect_next _ _ _ = Ok _ => apply expect_next_ok in H; subst
  | parse_name _ _ = Ok _ => apply parse_name_ok in H; subst
  end.

Lemma value_progress toks fuel :
  (forall p v p', parse_value toks fuel p = Ok (v, p') ->
     if is_enum_value v then p' = p else p < p')
  /\ (forall p v p', parse_list_value toks fuel p = Ok (v, p') ->
        p < p' /\ is_enum_value v = false)
  /\ (forall start vs p v p', parse_list_value_loop toks fuel start vs p = Ok (v, p') ->
        p < p' /\ is_enum_value v = false)
  /\ (forall p v p', parse_object_value toks fuel p = Ok (v, p') ->
        p < p' /\ is_enum_value v = false
        /\ exists t, nth_error toks p' = Some t /\ is_punctuator Punctuator.RightBrace t = true)
  /\ (forall start fs p v p', parse_object_value_loop toks fuel start fs p = Ok (v, p') ->
        p <= p' /\ is_enum_value v = false
        /\ exists t, nth_error toks p' = Some t /\ is_punctuator Punctuator.RightBrace t = true)
  /\ (forall p f p', parse_object_field toks fuel p = Ok (f, p') -> p < p').
Proof.
  induction fuel as [|fuel IH].
  { repeat split; intros; discriminate. }
  destruct IH as [IHv [IHl [IHll [IHo [IHol IHf]]]]].
  split; [|split; [|split; [|split; [|split]]]].
  - intros p v p' H. cbn [parse_value] in H. repeat pm_step H.
    destruct (LexicalToken.token_type a) eqn:Ht; repeat pm_step H; cbn [is_enum_value]; try lia.
    all: repeat match type of H with context [if ?b then _ else _] =>
        destruct b; repeat pm_step H; cbn [is_enum_value]; try lia; try reflexivity end.
    all: match type of H with context [match ?q with Punctuator.DollarSign => _ | _ => _ end] =>
      destruct q; repeat pm_step H; cbn [is_enum_value]; try lia end.
    + apply IHl in H as [H1 H2]. rewrite H2. exact H1.
    + apply IHo in H as [H1 [H2 _]]. rewrite H2. exact H1.
  - intros p v p' H. cbn [parse_list_value] in H. repeat pm_step H.
    apply IHll in H as [H1 H2]. split; [lia|exact H2].
  - intros start vs p v p' H. cbn [parse_list_value_loop] in H. repeat pm_step H.
    destruct (is_punctuator Punctuator.RightBracket a); repeat pm_step H.
    + split; [lia|reflexivity].
    + apply IHll in H as [H1 H2]. apply IHv in E. split; [|exact H2].
      destruct (is_enum_value a0); lia.
  - intros p v p' H. cbn [parse_object_value] in H. repeat pm_step H.
    apply IHol in H as [H1 H2]. split; [lia|exact H2].
  - intros start fs p v p' H. cbn [parse_object_value_loop] in H. repeat pm_step H.
    destruct (is_punctuator Punctuator.RightBrace a) eqn:Hb; cbn [negb] in H; repeat pm_step H.
    + split; [lia|]. split; [reflexivity|]. eauto.
    + apply IHf in E. apply IHol in H as [H1 H2]. split; [lia|exact H2].
  - intros p f p' H. cbn [parse_object_field] in H. repeat pm_step H.
    apply IHv in E. destruct (is_enum_value a2); lia.
Qed.

(** * Parser: list values and parentheses *)
(** X8: a list value whose first element is an enum value never finishes parsing: [parse_value] on ["["] followed by a name other than true, false and null runs out of fuel for every fuel, because the enum arm of [parse_value] does not consume its token and the list loop sees the same token again. *)
Theorem parse_value_enum_list_diverges :
  forall tokens ptr lb token name,
    nth_error tokens ptr = Some lb ->
    LexicalToken.token_type lb = LexicalTokenType.Punctuator Punctuator.LeftBracket ->
    nth_error tokens (S ptr) = Some token ->
    LexicalToken.token_type token = LexicalTokenType.Name name ->
    list_char_eqb name (str "true") = false ->
    list_char_eqb name (str "false") = false ->
    list_char_eqb name (str "null") = false ->
    forall fuel, parse_value tokens fuel ptr = OutOfFuel.
Proof.
  intros tokens ptr lb token name Hb Hbt Hn Ht H1 H2 H3 fuel.
  destruct fuel as [|[|fuel]]; [reflexivity| |].
  - cbn [parse_value]. unfold bind, peek. rewrite Hb, Hbt. reflexivity.
  - cbn [parse_value]. unfold bind, peek. rewrite Hb, Hbt.
    cbn [parse_list_value]. unfold get_current_position, next. cbn beta iota.
    exact (parse_list_value_loop_enum_diverges tokens (S ptr) token name Hn Ht H1 H2 H3 fuel _ []).
Qed.

(** X9: an empty pair of parentheses is accepted as an empty list by [parse_arguments], [parse_variable_definitions] and [parse_field_arguments], which consume both tokens. *)
Theorem empty_parentheses_accepted :
  forall tokens ptr l r fuel,
    nth_error tokens ptr = Some l ->
    LexicalToken.token_type l = LexicalTokenType.Punctuator Punctuator.LeftParenthesis ->
    nth_error tokens (S ptr) = Some r ->
    LexicalToken.token_type r = LexicalTokenType.Punctuator Punctuator.RightParenthesis ->
    parse_arguments tokens (S fuel) ptr = Ok ([], S (S ptr))
    /\ parse_variable_definitions tokens (S fuel) ptr = Ok ([], S (S ptr))
    /\ parse_field_arguments tokens (S fuel) ptr = Ok ([], S (S ptr)).
Proof.
  intros tokens ptr l r fuel Hl Hlt Hr Hrt.
  unfold parse_arguments, parse_variable_definitions, parse_field_arguments,
    bind, peek, peek_safe, is_punctuator.
  rewrite Hl, Hlt. cbn [LexicalTokenType.eqb Punctuator.eqb negb]. unfold next.
  cbn [parse_arguments_loop parse_variable_definitions_loop parse_field_arguments_loop].
  unfold bind, peek, peek_safe, is_punctuator. rewrite Hr, Hrt. cbn.
  repeat split.
Qed.

(** * Parser: names on lexed tokens *)
Lemma lex_name_tokens_valid source tokens :
  lex source = Ok tokens ->
  forall token v, In token tokens ->
    LexicalToken.token_type token = LexicalTokenType.Name v -> is_valid_name v = true.
Proof.
  unfold lex, Lexer.lex. intros H.
  apply res_bind_ok in H as [[body lx'] [E H]]. injection H as <-.
  pose proof (lex_while_token_ok _ _ _ _ _ E (Forall_nil _)) as F.
  intros token v Hin Hv. apply in_app_or in Hin as [Hin|[<-|[]]].
  - exact (proj2 (proj2 (proj1 (Forall_forall _ _) F token Hin)) v Hv).
  - discriminate.
Qed.

(** X10: on the tokens produced by [lex], [parse_name_maybe] never fails with "Invalid name": at a Name token it returns the name with the token position and advances by one, at any other token it returns None without advancing. *)
Theorem parse_name_maybe_on_lexed_tokens :
  forall source tokens ptr token,
    lex source = Ok tokens ->
    nth_error tokens ptr = Some token ->
    parse_name_maybe tokens ptr
    = Ok (match LexicalToken.token_type token with
          | LexicalTokenType.Name v => (Some (Name.mk v (LexicalToken.position token)), S ptr)
          | _ => (None, ptr)
          end).
Proof.
  intros source tokens ptr token Hl Hn.
  unfold parse_name_maybe, bind, get_current_position, peek. rewrite Hn.
  destruct (LexicalToken.token_type token) eqn:Ht; try reflexivity.
  rewrite (lex_name_tokens_valid source tokens Hl token _ (nth_error_In _ _ Hn) Ht).
  reflexivity.
Qed.

(** * String escapes; selection sets and union members *)
(** X11: in a string literal, a backslash followed by a char that is not n, r, t, a backslash or a double quote (for example u), or a backslash at the end of the input, is the error "Invalid character escape sequence." on the column just after the backslash. *)
Theorem tokenize_string_invalid_escape :
  forall pre decoded rest character line,
    decode_escapes pre = Some decoded ->
    (rest = [] \/ exists e r, rest = e :: r /\ Lexer.unescape e = None) ->
    Lexer.tokenize_string
      (Lexer.mk (DOUBLE_QUOTE :: pre ++ BACKSLASH :: rest) character line)
    = Err (error_at (str "Invalid character escape sequence.")
             line (character + List.length pre + 2) line (character + List.length pre + 3)).
Proof.
  intros pre decoded rest character line Hd Hr.
  unfold Lexer.tokenize_string, Lexer.expect_next, Lexer.next, Lexer.peek.
  cbn [Lexer.rest hd_error tl Lexer.character Lexer.line].
  replace (N.eqb DOUBLE_QUOTE DOUBLE_QUOTE) with true by reflexivity.
  cbn [res_bind Lexer.rest Lexer.character Lexer.line].
  rewrite (string_loop_prefix_at _ pre decoded (BACKSLASH :: rest) (S character) line []
             (le_n _) Hd).
  cbn [Lexer.string_loop].
  replace (N.eqb BACKSLASH DOUBLE_QUOTE) with false by reflexivity.
  replace (N.eqb BACKSLASH BACKSLASH) with true by reflexivity.
  replace (S (S character + List.length pre)) with (character + List.length pre + 2) by lia.
  replace (S (character + List.length pre + 2)) with (character + List.length pre + 3) by lia.
  destruct Hr as [-> | [e [r [-> He]]]]; [reflexivity|].
  rewrite He. reflexivity.
Qed.

Lemma selection_set_loop_closes toks fuel :
  forall position selections p s p',
    parse_selection_set_loop toks fuel position selections p = Ok (s, p') ->
    exists q t, p' = S q /\ nth_error toks q = Some t
      /\ is_punctuator Punctuator.RightBrace t = true.
Proof.
  induction fuel as [|fuel IH]; intros position selections p s p' H; [discriminate|].
  cbn [parse_selection_set_loop] in H. repeat pm_step H.
  destruct (is_punctuator Punctuator.RightBrace a) eqn:Hb; repeat pm_step H.
  - eauto.
  - exact (IH _ _ _ _ _ H).
Qed.

Lemma expect_next_token toks ty p b p' :
  expect_next toks ty p = Ok (b, p') ->
  exists t, nth_error toks p = Some t
    /\ LexicalTokenType.eqb (LexicalToken.token_type t) ty = true /\ p' = S p.
Proof.
  unfold expect_next. intros H. apply bind_ok in H as [t [p1 [E H]]].
  apply peek_ok in E as [-> Ht].
  destruct (LexicalTokenType.eqb _ _) eqn:Heq.
  - apply bind_ok in H as [u [p2 [E H]]]. apply next_ok in E. apply ret_ok in H.
    injection H as _ <-. eauto.
  - apply bind_ok in H as [u [p2 [E H]]]. apply fail_ok in H. contradiction.
Qed.

(** X12: a successful [parse_selection_set] starts at a left brace token and its last consumed token is a right brace. *)
Theorem parse_selection_set_braces :
  forall toks fuel p s p',
    parse_selection_set toks fuel p = Ok (s, p') ->
    (exists t, nth_error toks p = Some t /\ is_punctuator Punctuator.LeftBrace t = true)
    /\ exists q t, p' = S q /\ nth_error toks q = Some t
         /\ is_punctuator Punctuator.RightBrace t = true.
Proof.
  intros toks [|fuel] p s p' H; [discriminate|].
  cbn [parse_selection_set] in H.
  apply bind_ok in H as [r [p1 [E H]]]. apply get_current_position_ok in E as ->.
  apply bind_ok in H as [b [p2 [E H]]].
  destruct (expect_next_token _ _ _ _ _ E) as [t [Ht [Hb ->]]].
  split; [exists t; split; assumption|].
  exact (selection_set_loop_closes _ _ _ _ _ _ _ H).
Qed.

Lemma union_member_types_loop_extends toks fuel :
  forall member_types p ms p',
    parse_union_member_types_loop toks fuel member_types p = Ok (ms, p') ->
    exists extra, ms = member_types ++ extra.
Proof.
  induction fuel as [|fuel IH]; intros member_types p ms p' H; [discriminate|].
  cbn [parse_union_member_types_loop] in H. repeat pm_step H.
  destruct (is_punctuator Punctuator.VerticalBar a); repeat pm_step H.
  - destruct (IH _ _ _ _ H) as [extra ->]. exists (a1 :: extra). rewrite <- app_assoc. reflexivity.
  - exists []. rewrite app_nil_r. reflexivity.
Qed.

(** X13: a successful [parse_union_member_types] returns at least one member type. *)
Theorem parse_union_member_types_nonempty :
  forall toks fuel p ms p',
    parse_union_member_types toks fuel p = Ok (ms, p') ->
    exists first others, ms = first :: others.
Proof.
  intros toks fuel p ms p' H. unfold parse_union_member_types in H.
  apply bind_ok in H as [b [p1 [_ H]]]. apply bind_ok in H as [m [p2 [_ H]]].
  destruct (union_member_types_loop_extends _ _ _ _ _ _ H) as [extra ->].
  exists m, extra. reflexivity.
Qed.

(** * Parser: value progress, and the sample runs of the parser properties *)
(** X14: a successful [parse_value] consumes at least one token, except when it returns an enum value, which it returns without consuming any token. *)
Theorem parse_value_progress :
  forall tokens fuel ptr v ptr',
    parse_value tokens fuel ptr = Ok (v, ptr') ->
    if is_enum_value v then ptr' = ptr else ptr < ptr'.
Proof. intros tokens fuel. exact (proj1 (value_progress tokens fuel)). Qed.

(** X15: a successful [parse_object_value] consumes its left brace but stops at the right brace token without consuming it. *)
Theorem parse_object_value_stops_at_right_brace :
  forall tokens fuel ptr v ptr',
    parse_object_value tokens fuel ptr = Ok (v, ptr') ->
    ptr < ptr'
    /\ exists token, nth_error tokens ptr' = Some token
         /\ is_punctuator Punctuator.RightBrace token = true.
Proof.
  intros tokens fuel ptr v ptr' H.
  destruct (proj1 (proj2 (proj2 (proj2 (value_progress tokens fuel)))) ptr v ptr' H)
    as [H1 [_ H2]].
  split; assumption.
Qed.

Lemma tokenize_number_float_position_witness :
  Lexer.tokenize_number (Lexer.mk ([] ++ str "3" ++ ch "." :: str "25" ++ str ")") 0 0)
  = Ok (LexicalToken.new
          (LexicalTokenType.FloatValue
             {| float_sign := []; float_int := str "3"; float_decimal := str "25" |})
          (Range.new (Position.new 0 4) (Position.new 0 7)), Lexer.mk (str ")") 4 0).
Proof.
  rewrite (tokenize_number_float_position [] (str "3") (str "25") (str ")") 0 0).
  - reflexivity.
  - left; reflexivity.
  - discriminate.
  - reflexivity.
  - reflexivity.
  - intros c r' E. injection E as <- _. reflexivity.
Defined.

Lemma tokenize_string_invalid_escape_witness :
  Lexer.tokenize_string (Lexer.mk (DOUBLE_QUOTE :: str "a" ++ BACKSLASH :: str "u0041") 0 0)
  = Err (error_at (str "Invalid character escape sequence.") 0 3 0 4).
Proof.
  rewrite (tokenize_string_invalid_escape (str "a") (str "a") (str "u0041") 0 0).
  - reflexivity.
  - reflexivity.
  - right. exists (ch "u"), (str "0041"). split; reflexivity.
Defined.

Lemma lex_tokens_on_one_line_witness :
  lex (str "x(y: 1.5)") = Ok (lexed "x(y: 1.5)")
  /\ token_ok (hd (LexicalToken.new LexicalTokenType.EOF zero_range) (lexed "x(y: 1.5)")).
Proof.
  split; [vm_compute; reflexivity|].
  apply (lex_tokens_on_one_line (str "x(y: 1.5)") (lexed "x(y: 1.5)")).
  - vm_compute. reflexivity.
  - vm_compute. left. reflexivity.
  - vm_compute. reflexivity.
Defined.

Lemma parse_name_maybe_on_lexed_tokens_witness :
  parse_name_maybe tokens_names 1
  = Ok (Some (Name.mk (str "y") (Range.new (Position.new 0 2) (Position.new 0 3))), 2).
Proof.
  rewrite (parse_name_maybe_on_lexed_tokens (str "x y") tokens_names 1
             (LexicalToken.new (LexicalTokenType.Name (str "y"))
                (Range.new (Position.new 0 2) (Position.new 0 3)))).
  - reflexivity.
  - vm_compute. reflexivity.
  - vm_compute. reflexivity.
Defined.

Lemma parse_value_progress_witness :
  exists v, parse_value tokens_enum 3 0 = Ok (v, 0) /\ (if is_enum_value v then 0 = 0 else 0 < 0).
Proof.
  eexists. split; [vm_compute; reflexivity|].
  eapply (parse_value_progress tokens_enum 3 0). vm_compute. reflexivity.
Defined.

Lemma parse_object_value_stops_at_right_brace_witness :
  exists v, parse_object_value tokens_object 5 0 = Ok (v, 4)
    /\ (0 < 4 /\ exists token, nth_error tokens_object 4 = Some token
         /\ is_punctuator Punctuator.RightBrace token = true).
Proof.
  eexists. split; [vm_compute; reflexivity|].
  eapply (parse_object_value_stops_at_right_brace tokens_object 5 0). vm_compute. reflexivity.
Defined.

Lemma parse_value_enum_list_diverges_witness :
  parse_value tokens_enum_list 100 0 = OutOfFuel.
Proof.
  refine (parse_value_enum_list_diverges tokens_enum_list 0 _ _ (str "Red") _ _ _ _ _ _ _ 100);
    vm_compute; reflexivity.
Defined.

Lemma empty_parentheses_accepted_witness :
  parse_arguments tokens_parens 1 0 = Ok ([], 2)
  /\ parse_variable_definitions tokens_parens 1 0 = Ok ([], 2)
  /\ parse_field_arguments tokens_parens 1 0 = Ok ([], 2).
Proof.
  refine (empty_parentheses_accepted tokens_parens 0 _ _ 0 _ _ _ _); vm_compute; reflexivity.
Defined.

Lemma parse_selection_set_braces_witness :
  exists s, parse_selection_set tokens_selection 5 0 = Ok (s, 3)
    /\ ((exists t, nth_error tokens_selection 0 = Some t
                   /\ is_punctuator Punctuator.LeftBrace t = true)
        /\ exists q t, 3 = S q /\ nth_error tokens_selection q = Some t
             /\ is_punctuator Punctuator.RightBrace t = true).
Proof.
  eexists. split; [vm_compute; reflexivity|].
  eapply (parse_selection_set_braces tokens_selection 5 0). vm_compute. reflexivity.
Defined.

Lemma parse_union_member_types_nonempty_witness :
  exists ms, parse_union_member_types tokens_union 5 0 = Ok (ms, 4)
    /\ exists first others, ms = first :: others.
Proof.
  eexists. split; [vm_compute; reflexivity|].
  eapply (parse_union_member_types_nonempty tokens_union 5 0). vm_compute. reflexivity.
Defined.

(* ------------------------------------------------------------------ *)
(** * Schema entries, empty bodies and string escapes in general *)

Lemma parse_name_at_name tokens ptr tok name :
  nth_error tokens ptr = Some tok ->
  LexicalToken.token_type tok = LexicalTokenType.Name name ->
  is_valid_name name = true ->
  parse_name tokens ptr = Ok (Name.mk name (LexicalToken.position tok), S ptr).
Proof.
  intros Hn Ht Hv. unfold parse_name, parse_name_maybe, bind, get_current_position, peek.
  rewrite Hn, Ht, Hv. reflexivity.
Qed.

Lemma enum_values_loop_extends tokens fuel :
  forall values p vs p',
    parse_enum_values_loop tokens fuel values p = Ok (vs, p') ->
    exists extra, vs = values ++ extra.
Proof.
  induction fuel as [|fuel IH]; intros values p vs p' H; [discriminate|].
  cbn [parse_enum_values_loop] in H. repeat pm_step H.
  destruct (is_punctuator Punctuator.RightBrace a); cbn [negb] in H; repeat pm_step H.
  - exists []. rewrite app_nil_r. reflexivity.
  - match type of H with
    | parse_enum_values_loop _ _ (_ ++ [?v]) _ = _ =>
        destruct (IH _ _ _ _ H) as [extra ->]; exists (v :: extra); rewrite <- app_assoc; reflexivity
    end.
Qed.

Lemma lex_reaches_result tokens lx tokens2 lx2 result :
  lex_reaches tokens lx tokens2 lx2 ->
  (forall fuel, Lexer.lex_while (S fuel) tokens2 lx2 = result) ->
  forall fuel, Lexer.lex_while fuel tokens lx <> OutOfFuel ->
  Lexer.lex_while fuel tokens lx = result.
Proof.
  intros Hr Hres. induction Hr as [tokens lx|tokens lx tokens1 lx1 tokens2 lx2 Hs Hr IH];
    intros [|fuel] Hf; try (exfalso; apply Hf; reflexivity).
  - apply Hres.
  - rewrite Hs in *. apply IH; [exact Hres|exact Hf].
Qed.

Lemma tokenize_string_bad_escape pre decoded c post character line :
  decode_escapes pre = Some decoded ->
  escape_meaning c = None ->
  Lexer.tokenize_string
    (Lexer.mk (DOUBLE_QUOTE :: pre ++ BACKSLASH :: c :: post) character line)
  = Err (error_at (str "Invalid character escape sequence.")
           line (character + List.length pre + 2) line (character + List.length pre + 3)).
Proof.
  intros Hd Hc.
  unfold Lexer.tokenize_string, Lexer.expect_next, Lexer.next, Lexer.peek.
  cbn [Lexer.rest hd_error tl Lexer.character Lexer.line].
  rewrite N.eqb_refl.
  cbn [res_bind Lexer.rest Lexer.character Lexer.line].
  rewrite (string_loop_prefix_at _ pre decoded (BACKSLASH :: c :: post) (S character) line []
             (le_n _) Hd).
  cbn [Lexer.string_loop].
  replace (N.eqb BACKSLASH DOUBLE_QUOTE) with false by reflexivity.
  rewrite N.eqb_refl, unescape_escape_meaning, Hc.
  replace (S (S character + List.length pre)) with (character + List.length pre + 2) by lia.
  replace (S (character + List.length pre + 2)) with (character + List.length pre + 3) by lia.
  reflexivity.
Qed.

(** C6: inside a [schema { ... }] block every entry's leading name must be
    query, mutation or subscription.  In general: when the loop over the
    entries of the block ([parse_schema_loop]) is at a valid Name token
    that is none of the three keywords (as [foo] or [Query]), it fails
    with the error diagnostic "Expected operation type" at the range of
    that name; at one of the keywords, followed by a colon and a name, it
    records the entry and goes on after it.  On the input
    [schema { query: Query mutation: Mutation subscription: Subscription foo: Foo }]
    [parse] returns that error at the range of [foo], while the same block
    without [foo: Foo] parses. *)
Theorem parse_schema_rejects_unknown_operation_type :
  (forall tokens fuel operation_types ptr tok name,
     nth_error tokens ptr = Some tok ->
     LexicalToken.token_type tok = LexicalTokenType.Name name ->
     is_valid_name name = true ->
     OperationType.parse name = None ->
     parse_schema_loop tokens (S fuel) operation_types ptr
     = Err (parse_error (str "Expected operation type") (LexicalToken.position tok)))
  /\ (forall tokens fuel operation_types ptr tok name operation_type colon tok2 name2,
     nth_error tokens ptr = Some tok ->
     LexicalToken.token_type tok = LexicalTokenType.Name name ->
     is_valid_name name = true ->
     OperationType.parse name = Some operation_type ->
     nth_error tokens (S ptr) = Some colon ->
     LexicalToken.token_type colon = LexicalTokenType.Punctuator Punctuator.Colon ->
     nth_error tokens (S (S ptr)) = Some tok2 ->
     LexicalToken.token_type tok2 = LexicalTokenType.Name name2 ->
     is_valid_name name2 = true ->
     exists entry,
       parse_schema_loop tokens (S fuel) operation_types ptr
       = parse_schema_loop tokens fuel (operation_types ++ [entry]) (S (S (S ptr)))
       /\ RootOperationTypeDefinition.operation_type entry = operation_type
       /\ Name.value (NamedType.name (RootOperationTypeDefinition.named_type entry)) = name2)
  /\ (forall fuel, 5 <= fuel ->
      parse fuel (str "schema { query: Query mutation: Mutation subscription: Subscription foo: Foo }")
      = Err (parse_error (str "Expected operation type")
               (Range.new (Position.new 0 68) (Position.new 0 71)))
      /\ is_error (parse fuel (str "schema { query: Query mutation: Mutation subscription: Subscription foo: Foo }"))
         = true
      /\ match parse fuel (str "schema { query: Query mutation: Mutation subscription: Subscription }") with
         | Ok _ => True
         | _ => False
         end).
Proof.
  split; [|split].
  - intros tokens fuel operation_types ptr tok name Hn Ht Hv Hp.
    cbn [parse_schema_loop]. unfold bind at 1, peek. rewrite Hn.
    unfold is_punctuator. rewrite Ht. cbn [LexicalTokenType.eqb].
    unfold bind, get_current_position. rewrite Hn.
    pose proof (parse_name_at_name tokens ptr tok name Hn Ht Hv) as E.
    unfold bind in E. rewrite E. cbn [Name.value]. rewrite Hp. reflexivity.
  - intros tokens fuel operation_types ptr tok name operation_type colon tok2 name2
      Hn Ht Hv Hp Hc Hct Hn2 Ht2 Hv2.
    cbn [parse_schema_loop]. unfold bind at 1, peek. rewrite Hn.
    unfold is_punctuator. rewrite Ht. cbn [LexicalTokenType.eqb].
    unfold bind, get_current_position. rewrite Hn.
    pose proof (parse_name_at_name tokens ptr tok name Hn Ht Hv) as E.
    unfold bind in E. rewrite E. cbn [Name.value]. rewrite Hp.
    unfold expect_next, bind, peek. rewrite Hc, Hct. cbn [LexicalTokenType.eqb Punctuator.eqb].
    unfold next, ret, parse_named_type, bind, get_current_position. rewrite Hn2.
    pose proof (parse_name_at_name tokens (S (S ptr)) tok2 name2 Hn2 Ht2 Hv2) as E2.
    unfold bind in E2. rewrite E2.
    eexists. split; [reflexivity|]. split; reflexivity.
  - fuel_at_least 5. vm_compute. repeat split.
Qed.

Lemma parse_schema_rejects_unknown_operation_type_witness :
  parse_schema_loop tokens_schema_foo 1 [] 2
  = Err (parse_error (str "Expected operation type")
           (Range.new (Position.new 0 9) (Position.new 0 12)))
  /\ parse 5 (str "schema { query: Query mutation: Mutation subscription: Subscription foo: Foo }")
     = Err (parse_error (str "Expected operation type")
              (Range.new (Position.new 0 68) (Position.new 0 71))).
Proof.
  split.
  - apply (proj1 parse_schema_rejects_unknown_operation_type tokens_schema_foo 0 [] 2
             (LexicalToken.new (LexicalTokenType.Name (str "foo"))
                (Range.new (Position.new 0 9) (Position.new 0 12)))
             (str "foo")); reflexivity.
  - exact (proj1 (proj2 (proj2 parse_schema_rejects_unknown_operation_type) 5 (le_n 5))).
Defined.

(** C9: an enum type definition needs at least one value, while object and
    input object definitions may have empty bodies.  In general: every enum
    definition [parse_enum_type_definition] returns has a non-empty list of
    values; and at a left brace followed by a right brace
    [parse_enum_values] fails with the error diagnostic "Expected Name" at
    the right brace, while [parse_fields] and [parse_input_fields] return
    the empty list and go on after the right brace.  On the inputs:
    [enum E { }] is a parse error, while [type T { }] and [input I { }]
    parse with an empty fields list. *)
Theorem parse_empty_enum_errs_empty_bodies_parse :
  (forall tokens fuel description ptr d ptr',
     parse_enum_type_definition tokens fuel description ptr = Ok (d, ptr') ->
     exists first others, EnumTypeDefinition.values d = first :: others)
  /\ (forall tokens fuel ptr l r,
     nth_error tokens ptr = Some l ->
     LexicalToken.token_type l = LexicalTokenType.Punctuator Punctuator.LeftBrace ->
     nth_error tokens (S ptr) = Some r ->
     LexicalToken.token_type r = LexicalTokenType.Punctuator Punctuator.RightBrace ->
     parse_enum_values tokens fuel ptr
       = Err (parse_error (str "Expected Name") (LexicalToken.position r))
     /\ parse_fields tokens (S fuel) ptr = Ok ([], S (S ptr))
     /\ parse_input_fields tokens (S fuel) ptr = Ok ([], S (S ptr)))
  /\ (forall fuel, 2 <= fuel ->
      is_error (parse fuel (str "enum E { }")) = true
      /\ only_object_fields (parse fuel (str "type T { }")) = Some []
      /\ only_input_fields (parse fuel (str "input I { }")) = Some []).
Proof.
  split; [|split].
  - intros tokens fuel description ptr d ptr' H.
    unfold parse_enum_type_definition in H. repeat pm_step H.
    match goal with
    | E : parse_enum_values _ _ _ = Ok _ |- _ => unfold parse_enum_values in E; repeat pm_step E
    end.
    match goal with
    | E : parse_enum_values_loop _ _ [?v] _ = Ok _ |- _ =>
        destruct (enum_values_loop_extends _ _ _ _ _ _ E) as [extra ->]; exists v, extra; reflexivity
    end.
  - intros tokens fuel ptr l r Hl Hlt Hr Hrt.
    split; [|split].
    + unfold parse_enum_values, expect_next, bind, peek. rewrite Hl, Hlt.
      cbn [LexicalTokenType.eqb Punctuator.eqb]. unfold next, ret.
      unfold parse_enum_value_definition, parse_description, parse_name, parse_name_maybe,
        bind, get_current_position, peek, peek_safe.
      rewrite Hr, Hrt. unfold ret. cbv beta iota. rewrite Hr, Hrt. cbv beta iota.
      rewrite Hr. reflexivity.
    + unfold parse_fields, expect_next, bind, peek. rewrite Hl, Hlt.
      cbn [LexicalTokenType.eqb Punctuator.eqb]. unfold next, ret.
      cbn [parse_fields_loop]. unfold bind, peek_safe, is_punctuator. rewrite Hr, Hrt.
      reflexivity.
    + unfold parse_input_fields, expect_next, bind, peek. rewrite Hl, Hlt.
      cbn [LexicalTokenType.eqb Punctuator.eqb]. unfold next, ret.
      cbn [parse_input_fields_loop]. unfold bind, peek_safe, peek, is_punctuator. rewrite Hr, Hrt.
      cbn [LexicalTokenType.eqb Punctuator.eqb negb]. unfold ret. cbv beta iota.
      rewrite Hr, Hrt. cbn [LexicalTokenType.eqb Punctuator.eqb]. reflexivity.
  - fuel_at_least 2. vm_compute. repeat split.
Qed.

Lemma parse_empty_enum_errs_empty_bodies_parse_witness :
  (parse_enum_values tokens_braces 1 0
   = Err (parse_error (str "Expected Name") (Range.new (Position.new 0 2) (Position.new 0 3)))
   /\ parse_fields tokens_braces 2 0 = Ok ([], 2)
   /\ parse_input_fields tokens_braces 2 0 = Ok ([], 2))
  /\ is_error (parse 2 (str "enum E { }")) = true.
Proof.
  split.
  - apply (proj1 (proj2 parse_empty_enum_errs_empty_bodies_parse) tokens_braces 1 0
             (LexicalToken.new (LexicalTokenType.Punctuator Punctuator.LeftBrace)
                (Range.new (Position.new 0 0) (Position.new 0 1)))
             (LexicalToken.new (LexicalTokenType.Punctuator Punctuator.RightBrace)
                (Range.new (Position.new 0 2) (Position.new 0 3)))); reflexivity.
  - exact (proj1 (proj2 (proj2 parse_empty_enum_errs_empty_bodies_parse) 2 (le_n 2))).
Defined.

(** C8: escapes are decoded while lexing.  A string token read by
    [tokenize_string] holds the decoded text of the literal (each escape
    replaced by the char it stands for).  A backslash followed by a char
    that is no escape is an error, wherever the literal is in the input:
    when a round of the scan loop [lex_while] starts at a string literal
    whose body, up to that backslash, decodes, the loop fails with the
    error diagnostic "Invalid character escape sequence." on the column
    after the backslash; and when the loop, run by [lex] on the source,
    reaches such a state ([lex_reaches]), [lex] returns that error.  The
    literal a, backslash, n, b lexes to the three chars a, newline, b. *)
Theorem lex_string_escapes_decoded :
  (forall lx token lx',
     Lexer.tokenize_string lx = Ok (token, lx') ->
     exists raw value,
       Lexer.rest lx = DOUBLE_QUOTE :: raw ++ DOUBLE_QUOTE :: Lexer.rest lx'
       /\ decode_escapes raw = Some value
       /\ LexicalToken.token_type token = LexicalTokenType.StringValue value)
  /\ (forall fuel tokens lx pre decoded c post,
     Lexer.rest lx = DOUBLE_QUOTE :: pre ++ BACKSLASH :: c :: post ->
     decode_escapes pre = Some decoded ->
     escape_meaning c = None ->
     Lexer.lex_while (S fuel) tokens lx
     = Err (error_at (str "Invalid character escape sequence.")
              (Lexer.line lx) (Lexer.character lx + List.length pre + 2)
              (Lexer.line lx) (Lexer.character lx + List.length pre + 3)))
  /\ (forall source tokens lx pre decoded c post,
     lex_reaches [] (Lexer.new source) tokens lx ->
     Lexer.rest lx = DOUBLE_QUOTE :: pre ++ BACKSLASH :: c :: post ->
     decode_escapes pre = Some decoded ->
     escape_meaning c = None ->
     lex source
     = Err (error_at (str "Invalid character escape sequence.")
              (Lexer.line lx) (Lexer.character lx + List.length pre + 2)
              (Lexer.line lx) (Lexer.character lx + List.length pre + 3)))
  /\ match lex (DOUBLE_QUOTE :: str "a\nb" ++ [DOUBLE_QUOTE]) with
     | Ok (token :: _) =>
         LexicalToken.token_type token
         = LexicalTokenType.StringValue (str "a" ++ [NEW_LINE] ++ str "b")
     | _ => False
     end.
Proof.
  assert (Hw : forall fuel tokens lx pre decoded c post,
     Lexer.rest lx = DOUBLE_QUOTE :: pre ++ BACKSLASH :: c :: post ->
     decode_escapes pre = Some decoded ->
     escape_meaning c = None ->
     Lexer.lex_while (S fuel) tokens lx
     = Err (error_at (str "Invalid character escape sequence.")
              (Lexer.line lx) (Lexer.character lx + List.length pre + 2)
              (Lexer.line lx) (Lexer.character lx + List.length pre + 3))).
  { intros fuel tokens [rest character line] pre decoded c post Hr Hd Hc.
    cbn [Lexer.rest] in Hr. subst rest.
    rewrite lex_while_string by reflexivity.
    rewrite (tokenize_string_bad_escape pre decoded c post character line Hd Hc).
    reflexivity. }
  split; [|split; [exact Hw|split]].
  - intros lx token lx' H. unfold Lexer.tokenize_string in H.
    apply res_bind_ok in H as [[q lx1] [Hq H]].
    apply res_bind_ok in H as [[v lx2] [Hs H]].
    injection H as <- ->.
    unfold Lexer.expect_next, Lexer.next, Lexer.peek in Hq.
    destruct (Lexer.rest lx) as [|c cs] eqn:Hr; [discriminate|].
    cbn [hd_error tl] in Hq.
    destruct (N.eqb c DOUBLE_QUOTE) eqn:Hc; [|discriminate].
    injection Hq as _ <-. apply N.eqb_eq in Hc. subst c.
    destruct (string_loop_ok _ _ _ _ _ _ _ (le_n _) Hs) as [raw [d [Hcs [Hd ->]]]].
    exists raw, d. simpl in Hcs. rewrite Hcs. split; [reflexivity|]. split; [exact Hd|reflexivity].
  - intros source tokens lx pre decoded c post Hreach Hr Hd Hc.
    unfold lex, Lexer.lex.
    pose proof (lex_while_ok_or_err (S (List.length (Lexer.rest (Lexer.new source)))) []
                  (Lexer.new source) (le_n _)) as Hok.
    rewrite (lex_reaches_result _ _ _ _ _ Hreach
               (fun fuel => Hw fuel tokens lx pre decoded c post Hr Hd Hc)).
    + reflexivity.
    + intros E. rewrite E in Hok. exact Hok.
  - vm_compute. reflexivity.
Qed.

Lemma lex_string_escapes_decoded_witness :
  lex source_bad_escape
  = Err (error_at (str "Invalid character escape sequence.") 0 9 0 10).
Proof.
  eapply (proj1 (proj2 (proj2 lex_string_escapes_decoded)) source_bad_escape _
            (Lexer.mk (DOUBLE_QUOTE :: BACKSLASH :: str "q" ++ DOUBLE_QUOTE :: str ") }") 7 0)
            [] [] (ch "q") (DOUBLE_QUOTE :: str ") }"));
    [do 7 (eapply lex_reaches_step; [intros f; reflexivity|]); apply lex_reaches_refl
    |reflexivity|reflexivity|reflexivity].
Defined.
